(** * A spreadsheet cell engine: formula parser, cycle detector, evaluator

    Shallow embedding of [src/Grid.tsx].  JavaScript strings are sequences
    of UTF-16 code units, JavaScript numbers are IEEE 754 binary64 values
    (Rocq's primitive floats), arrays are lists whose out-of-range reads
    give [undefined], and a read of a property of [undefined] raises a
    [TypeError].  The getters of [Cell] take the grid they point back to as
    an explicit argument. *)

From Stdlib Require Import List ZArith NArith Lia Bool String Ascii.
From Stdlib Require Import Floats Uint63.
Import ListNotations.

(** ** Strings *)

Module JsString.

Definition codeunit := N.
Definition jsstring := list codeunit.

(** An ASCII literal of the source text as a code-unit sequence. *)
Definition lit (s : string) : jsstring :=
  map N_of_ascii (list_ascii_of_string s).

Definition eqb (a b : jsstring) : bool :=
  if list_eq_dec N.eq_dec a b then true else false.

(** WhiteSpace and LineTerminator code points, the set that [trim] and
    the string-to-number conversion strip. *)
Definition isWhiteSpace (c : codeunit) : bool :=
  ((9 <=? c) && (c <=? 13) || (c =? 32) || (c =? 160) || (c =? 5760)
   || (8192 <=? c) && (c <=? 8202) || (c =? 8232) || (c =? 8233)
   || (c =? 8239) || (c =? 8287) || (c =? 12288) || (c =? 65279))%N.

Fixpoint trimStart (s : jsstring) : jsstring :=
  match s with
  | c :: s' => if isWhiteSpace c then trimStart s' else s
  | [] => []
  end.

Definition trimEnd (s : jsstring) : jsstring := rev (trimStart (rev s)).

Definition trim (s : jsstring) : jsstring := trimEnd (trimStart s).

(** [s[i]]: the code unit at [i], [None] standing for [undefined]. *)
Definition charAt (s : jsstring) (i : Z) : option codeunit :=
  if (i <? 0)%Z then None else nth_error s (Z.to_nat i).

(** [s.indexOf(c)] for a one-unit needle: first position, or [-1]. *)
Fixpoint indexOfFrom (c : codeunit) (s : jsstring) (i : Z) : Z :=
  match s with
  | [] => (-1)%Z
  | d :: s' => if (d =? c)%N then i else indexOfFrom c s' (i + 1)%Z
  end.

Definition indexOf (s : jsstring) (c : codeunit) : Z := indexOfFrom c s 0%Z.

(** Relative index of [slice]: negative counts from the end, and the
    result is clamped to [0 .. length]. *)
Definition relIndex (len i : Z) : Z :=
  if (i <? 0)%Z then Z.max (len + i) 0 else Z.min i len.

Definition slice (s : jsstring) (start stop : Z) : jsstring :=
  let len := Z.of_nat (List.length s) in
  let from := relIndex len start in
  let to := relIndex len stop in
  firstn (Z.to_nat (to - from)) (skipn (Z.to_nat from) s).

Definition sliceFrom (s : jsstring) (start : Z) : jsstring :=
  slice s start (Z.of_nat (List.length s)).

(** [s.split(sep)] for a one-unit separator: never the empty array. *)
Fixpoint split (sep : codeunit) (s : jsstring) : list jsstring :=
  match s with
  | [] => [[]]
  | c :: s' =>
      if (c =? sep)%N then [] :: split sep s'
      else match split sep s' with
           | piece :: rest => (c :: piece) :: rest
           | [] => [[c]]
           end
  end.

Definition isUpper (c : codeunit) : bool := ((65 <=? c) && (c <=? 90))%N.
Definition isLower (c : codeunit) : bool := ((97 <=? c) && (c <=? 122))%N.
Definition isLetter (c : codeunit) : bool := isUpper c || isLower c.
Definition isDigit (c : codeunit) : bool := ((48 <=? c) && (c <=? 57))%N.

(** [toLowerCase]: the ASCII letters, and the two code points outside
    ASCII whose lower case contains an ASCII letter (U+0130 and the Kelvin
    sign U+212A).  Every other unit outside ASCII lower-cases to units
    outside ASCII, which is all a comparison with an ASCII word sees; they
    are left in place. *)
Definition lowerUnit (c : codeunit) : jsstring :=
  if isUpper c then [(c + 32)%N]
  else if (c =? 304)%N then [105%N; 775%N]
  else if (c =? 8490)%N then [107%N]
  else [c].

Definition toLowerCase (s : jsstring) : jsstring := flat_map lowerUnit s.

(** [toUpperCase], used by the source on one matched ASCII letter. *)
Definition upperUnit (c : codeunit) : codeunit :=
  if isLower c then (c - 32)%N else c.

Definition toUpperCase (s : jsstring) : jsstring := map upperUnit s.

End JsString.
Import JsString.

(** ** Numbers *)

Module JsNumber.

Definition number := float.

(** The Number value for an integer: round to nearest, ties to even. *)
Definition ofZ (n : Z) : number :=
  SF2Prim (binary_normalize prec emax n 0 false).

Definition ofNat (n : nat) : number := ofZ (Z.of_nat n).

(** The Number value for [m * 10^e10], [0 <= m].  For a negative exponent
    the quotient is computed with 56 bits or more and a sticky bit, so the
    single rounding below is the rounding of the exact value. *)
Definition ofDecimal (neg : bool) (m e10 : Z) : number :=
  let sgn := fun z : Z => if neg then (- z)%Z else z in
  if (m =? 0)%Z then (if neg then neg_zero else zero)
  else if (0 <=? e10)%Z then
    SF2Prim (binary_normalize prec emax (sgn (m * 10 ^ e10)%Z) 0 false)
  else
    let d := (10 ^ (- e10))%Z in
    let k := Z.max 0 (Z.log2 d - Z.log2 m + 56) in
    let q := (m * 2 ^ k / d)%Z in
    let r := ((m * 2 ^ k) mod d)%Z in
    let m' := (2 * q + (if (r =? 0)%Z then 0 else 1))%Z in
    SF2Prim (binary_normalize prec emax (sgn m') (- (k + 1))%Z false).

Definition isNaN (n : number) : bool := is_nan n.

Fixpoint span (p : codeunit -> bool) (s : jsstring) : jsstring * jsstring :=
  match s with
  | c :: s' => if p c then let (a, b) := span p s' in (c :: a, b) else ([], s)
  | [] => ([], [])
  end.

Definition digitValue (c : codeunit) : Z :=
  if isDigit c then Z.of_N (c - 48)
  else if isLower c then Z.of_N (c - 87)
  else Z.of_N (c - 55).

Definition digitsValue (base : Z) (ds : jsstring) : Z :=
  fold_left (fun acc c => (base * acc + digitValue c)%Z) ds 0%Z.

Definition isHexDigit (c : codeunit) : bool :=
  (isDigit c || (65 <=? c) && (c <=? 70) || (97 <=? c) && (c <=? 102))%N.
Definition isOctalDigit (c : codeunit) : bool := ((48 <=? c) && (c <=? 55))%N.
Definition isBinaryDigit (c : codeunit) : bool := ((48 <=? c) && (c <=? 49))%N.

(** NonDecimalIntegerLiteral after its two-unit prefix. *)
Definition nonDecimal (base : Z) (p : codeunit -> bool) (ds : jsstring) : number :=
  match ds with
  | [] => nan
  | _ => if forallb p ds then ofZ (digitsValue base ds) else nan
  end.

(** ExponentPart_opt at the end of the literal: [Some e], or [None] when
    the rest of the text is not an exponent. *)
Definition exponentPart (r : jsstring) : option Z :=
  match r with
  | [] => Some 0%Z
  | c :: r' =>
      if ((c =? 101) || (c =? 69))%N then
        let '(neg, ds) :=
          match r' with
          | c' :: ds =>
              if (c' =? 43)%N then (false, ds)
              else if (c' =? 45)%N then (true, ds)
              else (false, r')
          | [] => (false, r')
          end in
        match ds with
        | [] => None
        | _ => if forallb isDigit ds
               then Some (if neg then (- digitsValue 10 ds)%Z else digitsValue 10 ds)
               else None
        end
      else None
  end.

(** StrUnsignedDecimalLiteral. *)
Definition unsignedDecimal (neg : bool) (s : jsstring) : number :=
  if JsString.eqb s (lit "Infinity") then (if neg then neg_infinity else infinity)
  else
    let (ip, r1) := span isDigit s in
    let (fp, r2) :=
      match r1 with
      | c :: r => if (c =? 46)%N then span isDigit r else ([], r1)
      | [] => ([], r1)
      end in
    match ip, fp with
    | [], [] => nan
    | _, _ =>
        match exponentPart r2 with
        | Some e => ofDecimal neg (digitsValue 10 (ip ++ fp))
                      (e - Z.of_nat (List.length fp))
        | None => nan
        end
    end.

(** [Number(s)] on a string: StringToNumber. *)
Definition Number (s : jsstring) : number :=
  match trim s with
  | [] => zero
  | c0 :: rest =>
      let prefixed := fun lower upper : codeunit =>
        match rest with
        | c1 :: _ => ((c0 =? 48) && ((c1 =? lower) || (c1 =? upper)))%N
        | [] => false
        end in
      if prefixed 120%N 88%N then nonDecimal 16 isHexDigit (tl rest)
      else if prefixed 111%N 79%N then nonDecimal 8 isOctalDigit (tl rest)
      else if prefixed 98%N 66%N then nonDecimal 2 isBinaryDigit (tl rest)
      else if (c0 =? 43)%N then unsignedDecimal false rest
      else if (c0 =? 45)%N then unsignedDecimal true rest
      else unsignedDecimal false (c0 :: rest)
  end.

(** Truncation of a finite number to an integer. *)
Definition truncZ (n : number) : Z :=
  match Prim2SF n with
  | S754_finite s m e =>
      let a := if (0 <=? e)%Z then (Zpos m * 2 ^ e)%Z else (Zpos m / 2 ^ (- e))%Z in
      if s then (- a)%Z else a
  | _ => 0%Z
  end.

(** A number used as a property key of an array names an element when it
    is an integer of [0 .. 2^32 - 2] ([-0] names element 0). *)
Definition toIndex (n : number) : option Z :=
  let i := truncZ n in
  if ((0 <=? i) && (i <? 2 ^ 32 - 1))%Z && (n =? ofZ i)%float
  then Some i else None.

End JsNumber.
Import JsNumber.

Open Scope string_scope.

(** ** Exceptions and arrays *)

(** The outcome of running a piece of the program: a value, a raised
    [TypeError], or, for the recursive getters run with a bound on the
    recursion depth, the bound being reached. *)
Inductive result (A : Type) : Type :=
| Ret (a : A)
| TypeError
| OutOfFuel.
Arguments Ret {A} a.
Arguments TypeError {A}.
Arguments OutOfFuel {A}.

Definition bind {A B : Type} (r : result A) (k : A -> result B) : result B :=
  match r with
  | Ret a => k a
  | TypeError => TypeError
  | OutOfFuel => OutOfFuel
  end.

Notation "'do' a <- r ; k" := (bind r (fun a => k))
  (at level 10, a name, r at level 100, k at level 200).

(** Element [i] of an array, [None] standing for [undefined]. *)
Fixpoint element {A : Type} (l : list A) (i : Z) : option A :=
  match l with
  | [] => None
  | a :: l' => if (i =? 0)%Z then Some a else element l' (i - 1)%Z
  end.

(** [l[n]] for a number [n]. *)
Definition arrayGet {A : Type} (l : list A) (n : number) : option A :=
  match toIndex n with
  | Some i => element l i
  | None => None
  end.

(** ** Data model *)

Record Address : Type := { x : number; y : number }.

(** A cell; the [state] field of the source is the grid that holds the
    cell, handed to the getters below as an argument. *)
Record Cell : Type := { raw : jsstring }.

(** What a read of a grid position gives: [undefined] outside a row (or in
    a hole of one), [null], or a cell. *)
Inductive slot : Type :=
| Undefined
| Null
| Occupied (cell : Cell).

Definition State := list (list slot).

Definition lookupCell (state : State) (address : Address) : result slot :=
  match arrayGet state (y address) with
  | None => TypeError
  | Some row =>
      Ret (match arrayGet row (x address) with
           | Some s => s
           | None => Undefined
           end)
  end.

(** [row[i] = s] on an array: replaces in range, extends with holes past
    the end. *)
Fixpoint setElement (row : list slot) (i : nat) (s : slot) : list slot :=
  match row, i with
  | _ :: row', O => s :: row'
  | [], O => [s]
  | c :: row', S i' => c :: setElement row' i' s
  | [], S i' => Undefined :: setElement [] i' s
  end.

Fixpoint updateRow (state : State) (i : Z) (f : list slot -> list slot) : State :=
  match state with
  | [] => []
  | row :: state' =>
      if (i =? 0)%Z then f row :: state' else row :: updateRow state' (i - 1)%Z f
  end.

(** [state[address.y][address.x] = cell].  A key [address.x] that is not an
    array index would add a named property to the row and leave its elements
    as they are. *)
Definition insertCell (state : State) (address : Address) (cell : Cell) : result State :=
  match toIndex (y address), arrayGet state (y address) with
  | Some i, Some _ =>
      Ret (match toIndex (x address) with
           | Some j => updateRow state i (fun row => setElement row (Z.to_nat j) (Occupied cell))
           | None => state
           end)
  | _, _ => TypeError
  end.

Inductive NumericArgs : Type :=
| NumConst (num : number)
| NumRef (address : Address).

Inductive CellParsed : Type :=
| Const
| Invalid
| Ref (address : Address)
| Sum (args : list NumericArgs)
| Product (args : list NumericArgs).

Definition eqAddress (a b : Address) : bool :=
  (x a =? x b)%float && (y a =? y b)%float.

Definition isRefArg (arg : NumericArgs) : bool :=
  match arg with NumRef _ => true | NumConst _ => false end.

(** [args.filter(isRefArg).map((x) => x.address)]: the filter leaves the
    [NumRef] arguments, whose addresses are collected in order. *)
Definition refAddresses (args : list NumericArgs) : list Address :=
  flat_map (fun arg => match arg with NumRef a => [a] | NumConst _ => [] end)
           (filter isRefArg args).

Definition dependencies (parsed : CellParsed) : list Address :=
  match parsed with
  | Const => []
  | Invalid => []
  | Ref address => [address]
  | Sum args => refAddresses args
  | Product args => refAddresses args
  end.

(** ** Formula parser *)

Definition alphabet : list jsstring :=
  map lit ["A"; "B"; "C"; "D"; "E"; "F"; "G"; "H"; "I"; "J"; "K"; "L"; "M";
           "N"; "O"; "P"; "Q"; "R"; "S"; "T"; "U"; "V"; "W"; "X"; "Y"; "Z"].

(** [Object.fromEntries(alphabet.map((char, idx) => [char, idx]))] as an
    association list, and a property read of it. *)
Definition alphabetEntries : list (jsstring * number) :=
  combine alphabet (map ofNat (seq 0 (List.length alphabet))).

Fixpoint property {A : Type} (entries : list (jsstring * A)) (key : jsstring) : option A :=
  match entries with
  | [] => None
  | (k, v) :: entries' =>
      match property entries' key with
      | Some v' => Some v'
      | None => if JsString.eqb k key then Some v else None
      end
  end.

Definition alphabetToIdx (key : jsstring) : option number :=
  property alphabetEntries key.

(** [s.match(/^([A-Z])([0-9]+)$/i)]: the two groups of a match.  Without
    the unicode flag the class [[A-Z]] under [/i] holds the 52 ASCII letters
    and nothing else. *)
Definition matchRef (s : jsstring) : option (jsstring * jsstring) :=
  match s with
  | c :: d :: ds =>
      if isLetter c && forallb isDigit (d :: ds) then Some ([c], d :: ds) else None
  | _ => None
  end.

Definition parseRef (argTrimmed : jsstring) : option Address :=
  match matchRef argTrimmed with
  | Some (g1, g2) =>
      (* the lookup cannot miss: [g1] is a letter, see [alphabetToIdx_letter] *)
      let x := match alphabetToIdx (toUpperCase g1) with Some i => i | None => nan end in
      let y := Number g2 in
      Some {| x := x; y := y |}
  | None => None
  end.

(** The loop of [parseNumericArgs], [args] being the array built so far;
    [None] is the [null] of the early return. *)
Fixpoint parseNumericArgsLoop (argsStrings : list jsstring) (args : list NumericArgs)
  : option (list NumericArgs) :=
  match argsStrings with
  | [] => Some args
  | arg :: rest =>
      let argTrimmed := trim arg in
      match parseRef argTrimmed with
      | Some address => parseNumericArgsLoop rest (args ++ [NumRef address])
      | None =>
          let num := Number argTrimmed in
          if negb (isNaN num) then parseNumericArgsLoop rest (args ++ [NumConst num])
          else None
      end
  end.

Definition parseNumericArgs (argsStrings : list jsstring) : option (list NumericArgs) :=
  match parseNumericArgsLoop argsStrings [] with
  | Some args => if (List.length args =? 0)%nat then None else Some args
  | None => None
  end.

Definition parseCellContents (value : jsstring) : CellParsed :=
  let val := trim value in
  match charAt val 0 with
  | None => Const
  | Some c0 =>
      if negb (c0 =? 61)%N then Const
      else
        let openParenPos := indexOf val 40%N in
        if (openParenPos =? -1)%Z then
          match parseRef (trim (sliceFrom val 1)) with
          | Some address => Ref address
          | None => Invalid
          end
        else
          let func := toLowerCase (slice val 1 openParenPos) in
          let argsWithParens := sliceFrom val openParenPos in
          match charAt argsWithParens (Z.of_nat (List.length argsWithParens) - 1) with
          | None => Invalid
          | Some last =>
              if negb (last =? 41)%N then Invalid
              else
                let argsStrings :=
                  split 44%N (slice argsWithParens 1
                                    (Z.of_nat (List.length argsWithParens) - 1)) in
                if JsString.eqb func (lit "sum") then
                  match parseNumericArgs argsStrings with
                  | None => Invalid
                  | Some args => Sum args
                  end
                else if JsString.eqb func (lit "product") then
                  match parseNumericArgs argsStrings with
                  | None => Invalid
                  | Some args => Product args
                  end
                else Invalid
          end
  end.

(** ** Evaluator *)

Record Monoid : Type := { empty : number; concat : number -> number -> number }.

Definition sum : Monoid := {| empty := zero; concat := fun a b => (a + b)%float |}.

Definition product : Monoid := {| empty := one; concat := fun a b => (a * b)%float |}.

Definition asNumber (x : jsstring) (def : number) : number :=
  let num := Number x in
  if isNaN num then def else num.

(** A displayed value: [string | number]. *)
Inductive DisplayValue : Type :=
| Text (s : jsstring)
| Num (n : number).

(** The operand test of [||]: the empty string, [0], [-0] and [NaN] are
    falsy. *)
Definition truthy (v : DisplayValue) : bool :=
  match v with
  | Text s => negb (JsString.eqb s [])
  | Num n => negb ((n =? zero)%float || isNaN n)
  end.

Section Getter.

(** The [value] getter of the cells, as the functions that call it see
    it. *)
Variable getValue : Cell -> result DisplayValue.

Definition readNumber (cell : slot) (def : number) : result number :=
  match cell with
  | Occupied c =>
      do value <- getValue c;
      Ret (match value with
           | Num n => n
           | Text s => asNumber s def
           end)
  | Null | Undefined => Ret def
  end.

(** The loop of [evalNumericFunction] from the running result [res]. *)
Fixpoint evalNumericLoop (state : State) (args : list NumericArgs) (m : Monoid)
         (res : number) : result number :=
  match args with
  | [] => Ret res
  | NumConst num :: rest => evalNumericLoop state rest m (concat m res num)
  | NumRef address :: rest =>
      do cell <- lookupCell state address;
      do n <- readNumber cell (empty m);
      evalNumericLoop state rest m (concat m res n)
  end.

Definition evalNumericFunction (state : State) (args : list NumericArgs) (m : Monoid)
  : result number :=
  evalNumericLoop state args m (empty m).

End Getter.

Definition parsed (this : Cell) : CellParsed := parseCellContents (raw this).

Definition cellDependencies (this : Cell) : list Address := dependencies (parsed this).

(** The [value] getter, [fuel] bounding the depth of the chain of getters
    it may go through.  The [computed] wrapper of the source memoises the
    getter and is left out. *)
Fixpoint value (fuel : nat) (state : State) (this : Cell) : result DisplayValue :=
  match fuel with
  | O => OutOfFuel
  | S fuel' =>
      match parsed this with
      | Const => Ret (Text (raw this))
      | Invalid => Ret (Text (lit "INVALID"))
      | Ref address =>
          do cell <- lookupCell state address;
          match cell with
          | Occupied c =>
              do v <- value fuel' state c;
              Ret (if truthy v then v else Text [])
          | Null | Undefined => Ret (Text [])
          end
      | Sum args =>
          do n <- evalNumericFunction (value fuel' state) state args sum;
          Ret (Num n)
      | Product args =>
          do n <- evalNumericFunction (value fuel' state) state args product;
          Ret (Num n)
      end
  end.

(** ** Grid *)

Definition newCell (raw : jsstring) : Cell := {| raw := raw |}.

(** [makeMatrix(cols, rows)]: every [res[i][j]] with [i < rows] and
    [j < cols] receives a cell of its own with empty raw text. *)
Definition makeMatrix (cols rows : nat) : State :=
  repeat (repeat (Occupied (newCell [])) cols) rows.

(** [Array.prototype.some] with a callback that may raise. *)
Definition some {A : Type} (f : A -> result bool) : list A -> result bool :=
  fix go (l : list A) : result bool :=
    match l with
    | [] => Ret false
    | a :: l' => do b <- f a; if b then Ret true else go l'
    end.

Fixpoint hasLoop (fuel : nat) (state : State) (address depAddress : Address)
  : result bool :=
  match fuel with
  | O => OutOfFuel
  | S fuel' =>
      if eqAddress address depAddress then Ret true
      else
        do depCel <- lookupCell state depAddress;
        match depCel with
        | Occupied c => some (hasLoop fuel' state address) (cellDependencies c)
        | Null | Undefined => Ret false
        end
  end.

Definition hasDependencyCycle (fuel : nat) (state : State) (address : Address)
           (value : jsstring) : result bool :=
  some (hasLoop fuel state address) (dependencies (parseCellContents value)).

Definition setRaw (this : Cell) (value : jsstring) : Cell := {| raw := value |}.

(** [newValue]: a [null] slot receives a new cell; a cell has its raw text
    replaced in place, which the grid that holds it shows at that slot; on
    [undefined] the call of [setRaw] raises. *)
Definition newValue (state : State) (address : Address) (value : jsstring)
  : result State :=
  do cell <- lookupCell state address;
  match cell with
  | Null => insertCell state address (newCell value)
  | Occupied c => insertCell state address (setRaw c value)
  | Undefined => TypeError
  end.

(** What the blur handler of the cell editor did. *)
Inductive outcome : Type :=
| Committed
| CycleRejected
| Raised
| Diverged.

(** The blur handler of [CellRenderer]: the grid it leaves and what
    happened. *)
Definition onBlur (fuel : nat) (matrix : State) (address : Address) (edit : jsstring)
  : State * outcome :=
  match hasDependencyCycle fuel matrix address edit with
  | Ret true => (matrix, CycleRejected)
  | Ret false =>
      match newValue matrix address edit with
      | Ret matrix' => (matrix', Committed)
      | _ => (matrix, Raised)
      end
  | TypeError => (matrix, Raised)
  | OutOfFuel => (matrix, Diverged)
  end.

(** What [CellRenderer] shows for the grid position [address]:
    [cell != null ? cell.value : ""]. *)
Definition readValue (fuel : nat) (matrix : State) (address : Address)
  : result DisplayValue :=
  do cell <- lookupCell matrix address;
  match cell with
  | Occupied c => value fuel matrix c
  | Null | Undefined => Ret (Text [])
  end.

(** The grid of [Grid]: [makeMatrix(alphabet.length, 1000)]. *)
Definition gridMatrix : State := makeMatrix (List.length alphabet) 1000.

(** The address that the reference [<letter><row>] parses to, by column
    index and row number. *)
Definition addr (col row : Z) : Address := {| x := ofZ col; y := ofZ row |}.

(** ** Rendering *)

(** What [GridNode] puts at the coordinates of the scrolling grid, whose
    first row and first column hold the labels: nothing in the corner, the
    row number [rowIndex - 1], the letter [alphabet[columnIndex - 1]]
    ([None] for [undefined]), or the [CellRenderer] of the cell at
    [(columnIndex - 1, rowIndex - 1)]. *)
Inductive rendered : Type :=
| Blank
| RowLabel (n : number)
| ColumnLabel (letter : option jsstring)
| CellAt (address : Address).

Definition GridNode (columnIndex rowIndex : number) : rendered :=
  if (columnIndex =? zero)%float && (rowIndex =? zero)%float then Blank
  else if (columnIndex =? zero)%float then RowLabel (rowIndex - one)%float
  else if (rowIndex =? zero)%float then
    ColumnLabel (arrayGet alphabet (columnIndex - one)%float)
  else CellAt {| x := (columnIndex - one)%float; y := (rowIndex - one)%float |}.

(** [startEdit] of [CellRenderer]: the text that the editor opens with,
    [cell == null ? "" : cell.raw]. *)
Definition startEdit (cell : slot) : jsstring :=
  match cell with
  | Occupied c => raw c
  | Null | Undefined => []
  end.

(** A focus on the cell at [address] followed by a blur with the text
    untouched: [CellRenderer] looks the cell up, [startEdit] takes its raw
    text and the blur handler proposes it. *)
Definition focusThenBlur (fuel : nat) (matrix : State) (address : Address)
  : result (State * outcome) :=
  do cell <- lookupCell matrix address;
  Ret (onBlur fuel matrix address (startEdit cell)).

(** * The grid as a graph *)

(** The position of the letter [c] in the alphabet. *)
Definition letterIndex (c : codeunit) : Z := Z.of_N (upperUnit c) - 65.

(** A grid position: row index and column index. *)
Definition position : Type := Z * Z.

Definition position_eq_dec (p q : position) : {p = q} + {p <> q}.
Proof. decide equality; apply Z.eq_dec. Defined.

(** The position that an address names, when both of its coordinates are
    array indices. *)
Definition slotOf (address : Address) : option position :=
  match toIndex (y address), toIndex (x address) with
  | Some r, Some c => Some (r, c)
  | _, _ => None
  end.

(** The cell that the grid holds at a position. *)
Definition cellAt (state : State) (p : position) : option Cell :=
  match element state (fst p) with
  | Some row =>
      match element row (snd p) with
      | Some (Occupied cell) => Some cell
      | _ => None
      end
  | None => None
  end.

(** [edge state p q]: the cell committed at [p] names [q] in its formula. *)
Definition edge (state : State) (p q : position) : Prop :=
  exists cell dep,
    cellAt state p = Some cell /\ In dep (cellDependencies cell) /\ slotOf dep = Some q.

(** [dependsOn state p q]: the cell at [p] reads [q], directly or through
    a chain of committed formulas. *)
Inductive dependsOn (state : State) : position -> position -> Prop :=
| dependsOn_edge p q : edge state p q -> dependsOn state p q
| dependsOn_step p q r : edge state p q -> dependsOn state q r -> dependsOn state p r.

(** The committed dependency graph has no cycle. *)
Definition acyclic (state : State) : Prop :=
  forall p, ~ dependsOn state p p.

(** [leads state p q]: from [q] the committed formulas lead to [p], on a
    path that stops where it first meets [p]. *)
Inductive leads (state : State) (p : position) : position -> Prop :=
| leads_here : leads state p p
| leads_step q r : q <> p -> edge state q r -> leads state p r -> leads state p q.

(** A chain of positions, latest first, each named by the formula of the
    one before it: the cells that a recursion of the detector or of the
    evaluator has gone through. *)
Inductive chain (state : State) : list position -> Prop :=
| chain_nil : chain state []
| chain_one q : chain state [q]
| chain_cons q q' path :
    edge state q' q -> chain state (q' :: path) -> chain state (q :: q' :: path).

(** What ties a call of the detector's callback to the chain of cells it
    came through: the latest cell names the dependency. *)
Definition linked (state : State) (path : list position) (dep : Address) : Prop :=
  match path with
  | [] => True
  | q :: _ => exists cell, cellAt state q = Some cell /\ In dep (cellDependencies cell)
  end.

(** Every formula of the grid names rows of the grid only. *)
Definition refsInGrid (state : State) : Prop :=
  forall p cell dep,
    cellAt state p = Some cell -> In dep (cellDependencies cell) ->
    lookupCell state dep <> TypeError.

(** Every slot of a [cols] by [rows] grid holds a cell. *)
Definition fullGrid (cols rows : nat) (state : State) : Prop :=
  List.length state = rows
  /\ Forall (fun row => List.length row = cols
                        /\ Forall (fun s => exists cell, s = Occupied cell) row) state.

(** An address inside a [cols] by [rows] grid. *)
Definition inBounds (cols rows : nat) (address : Address) : Prop :=
  exists r c, slotOf address = Some (r, c)
              /\ (r < Z.of_nat rows)%Z /\ (c < Z.of_nat cols)%Z.

(** The grids that the program goes through: the one [makeMatrix] builds,
    and those that the blur handler leaves. *)
Inductive reachable (cols rows : nat) : State -> Prop :=
| reachable_init : reachable cols rows (makeMatrix cols rows)
| reachable_edit matrix fuel address edit :
    reachable cols rows matrix ->
    reachable cols rows (fst (onBlur fuel matrix address edit)).

(** The positions of a grid, row by row. *)
Fixpoint indexed {A : Type} (l : list A) (i : Z) : list (Z * A) :=
  match l with
  | [] => []
  | a :: l' => (i, a) :: indexed l' (i + 1)%Z
  end.

Definition positions (state : State) : list position :=
  flat_map (fun ir => map (fun js => (fst ir, fst js)) (indexed (snd ir) 0%Z))
           (indexed state 0%Z).

Definition slotCount (state : State) : nat := List.length (positions state).

(** * Properties *)

(** ** The parser *)

Lemma split_not_nil (sep : codeunit) (s : jsstring) : split sep s <> [].
Proof.
  destruct s as [|c s]; simpl; [discriminate|].
  destruct (c =? sep)%N; [discriminate|].
  destruct (split sep s); discriminate.
Qed.

Lemma parseNumericArgsLoop_length (argsStrings : list jsstring) :
  forall args args',
    parseNumericArgsLoop argsStrings args = Some args' ->
    List.length args' = (List.length args + List.length argsStrings)%nat.
Proof.
  induction argsStrings as [|arg rest IH]; simpl; intros args args' H.
  - injection H as <-. lia.
  - destruct (parseRef (trim arg)).
    + apply IH in H. rewrite H, length_app. simpl. lia.
    + destruct (negb (isNaN (Number (trim arg)))); [|discriminate].
      apply IH in H. rewrite H, length_app. simpl. lia.
Qed.

Lemma parseNumericArgs_not_nil (argsStrings : list jsstring) (args : list NumericArgs) :
  parseNumericArgs argsStrings = Some args -> args <> [].
Proof.
  unfold parseNumericArgs.
  destruct (parseNumericArgsLoop argsStrings []) as [a|]; [|discriminate].
  destruct a; simpl; [discriminate|].
  intros H. injection H as <-. discriminate.
Qed.

(** The shapes of a parse: a [Sum] or [Product] holds an argument. *)
Lemma parseCellContents_shape (value : jsstring) :
  parseCellContents value = Const \/
  parseCellContents value = Invalid \/
  (exists address, parseCellContents value = Ref address) \/
  (exists args, parseCellContents value = Sum args /\ args <> []) \/
  (exists args, parseCellContents value = Product args /\ args <> []).
Proof.
  unfold parseCellContents.
  destruct (charAt (trim value) 0); [|now left].
  destruct (negb (c =? 61)%N); [now left|].
  destruct (indexOf (trim value) 40%N =? -1)%Z.
  - destruct (parseRef _); [right; right; left; eauto | right; now left].
  - destruct (charAt _ _) as [c1|]; [|right; now left].
    destruct (negb (c1 =? 41)%N); [right; now left|].
    destruct (JsString.eqb _ (lit "sum")).
    + destruct (parseNumericArgs _) eqn:E; [|right; now left].
      right; right; right; left. eexists; split; eauto.
      eapply parseNumericArgs_not_nil; eauto.
    + destruct (JsString.eqb _ (lit "product")); [|right; now left].
      destruct (parseNumericArgs _) eqn:E; [|right; now left].
      right; right; right; right. eexists; split; eauto.
      eapply parseNumericArgs_not_nil; eauto.
Qed.

(** C3.  The call with nothing between the parentheses does not parse as
    [Invalid]: [split] gives the one empty piece, which converts to the
    number 0, so the result is a [Sum] of the constant 0. *)
Theorem parse_sum_of_nothing :
  parseCellContents (lit "=SUM()") = Sum [NumConst zero]
  /\ parseNumericArgs [] = None
  /\ split 44%N [] = [[]].
Proof. repeat split; vm_compute; reflexivity. Qed.

(** *** References *)

Lemma isLetter_cases (c : codeunit) :
  isLetter c = true ->
  In c (map N.of_nat (seq 65 26)) \/ In c (map N.of_nat (seq 97 26)).
Proof.
  unfold isLetter, isUpper, isLower. intros H.
  assert (Hc : (c < 128)%N).
  { rewrite orb_true_iff, !andb_true_iff, !N.leb_le in H. lia. }
  destruct c as [|p]; [discriminate|].
  do 7 (destruct p as [p|p|]; try discriminate H; try lia);
    vm_compute; tauto.
Qed.

Lemma alphabetToIdx_letter (c : codeunit) :
  isLetter c = true ->
  alphabetToIdx (toUpperCase [c]) = Some (ofZ (letterIndex c)).
Proof.
  intros H. apply isLetter_cases in H.
  destruct H as [H|H]; simpl in H;
    repeat (destruct H as [<-|H]; [vm_compute; reflexivity|]); destruct H.
Qed.

Lemma span_all (p : codeunit -> bool) (s : jsstring) :
  forallb p s = true -> span p s = (s, []).
Proof.
  induction s as [|c s IH]; simpl; [reflexivity|].
  intros H. apply andb_true_iff in H as [Hc Hs].
  rewrite Hc, (IH Hs). reflexivity.
Qed.

Lemma isDigit_not_space (c : codeunit) : isDigit c = true -> isWhiteSpace c = false.
Proof.
  unfold isDigit, isWhiteSpace. intros H.
  rewrite andb_true_iff, !N.leb_le in H.
  repeat (apply orb_false_iff; split);
    rewrite ?andb_false_iff, ?N.leb_gt, ?N.eqb_neq; lia.
Qed.

Lemma trimStart_head (c : codeunit) (s : jsstring) :
  isWhiteSpace c = false -> trimStart (c :: s) = c :: s.
Proof. intros H. simpl. now rewrite H. Qed.

Lemma trim_digits (s : jsstring) : forallb isDigit s = true -> trim s = s.
Proof.
  intros H. unfold trim, trimEnd.
  assert (Hs : trimStart s = s).
  { destruct s as [|c s]; [reflexivity|]. simpl in H.
    apply andb_true_iff in H as [Hc _].
    apply trimStart_head, isDigit_not_space, Hc. }
  rewrite Hs.
  assert (Hr : trimStart (rev s) = rev s).
  { assert (Hall : forallb isDigit (rev s) = true).
    { apply forallb_forall. intros c Hc. apply in_rev in Hc.
      eapply forallb_forall in H; eauto. }
    destruct (rev s) as [|c r]; [reflexivity|]. simpl in Hall.
    apply andb_true_iff in Hall as [Hc _].
    apply trimStart_head, isDigit_not_space, Hc. }
  rewrite Hr. apply rev_involutive.
Qed.

Lemma ofDecimal_integer (m : Z) : (0 <= m)%Z -> ofDecimal false m 0 = ofZ m.
Proof.
  intros Hm. unfold ofDecimal, ofZ.
  destruct (Z.eqb_spec m 0) as [->|Hne]; [reflexivity|].
  simpl. now rewrite Z.mul_1_r.
Qed.

Lemma digitsValue_nonneg (ds : jsstring) : (0 <= digitsValue 10 ds)%Z.
Proof.
  unfold digitsValue.
  assert (H : forall acc, (0 <= acc)%Z ->
            (0 <= fold_left (fun acc c => 10 * acc + digitValue c) ds acc)%Z).
  { induction ds as [|c ds IH]; cbn [fold_left]; intros acc Hacc; [assumption|].
    apply IH. unfold digitValue.
    destruct (isDigit c); [lia|]. destruct (isLower c); lia. }
  apply H. lia.
Qed.

(** The row of a reference: a run of digits converts to the number of its
    decimal value, leading zeros or not. *)
Lemma Number_digits (d : codeunit) (ds : jsstring) :
  forallb isDigit (d :: ds) = true ->
  Number (d :: ds) = ofZ (digitsValue 10 (d :: ds)).
Proof.
  intros H. unfold Number. rewrite (trim_digits _ H).
  assert (Hd : isDigit d = true) by (simpl in H; now apply andb_true_iff in H).
  assert (Hpre : forall lower upper : codeunit,
             isDigit lower = false -> isDigit upper = false ->
             match ds with
             | c1 :: _ => ((d =? 48) && ((c1 =? lower) || (c1 =? upper)))%N
             | [] => false
             end = false).
  { intros lower upper Hl Hu. destruct ds as [|c1 ds]; [reflexivity|].
    assert (Hc1 : isDigit c1 = true).
    { simpl in H. apply andb_true_iff in H as [_ H].
      now apply andb_true_iff in H. }
    destruct (N.eqb_spec c1 lower) as [->|_]; [congruence|].
    destruct (N.eqb_spec c1 upper) as [->|_]; [congruence|].
    apply andb_false_r. }
  rewrite !Hpre by reflexivity.
  destruct (N.eqb_spec d 43) as [->|_]; [discriminate Hd|].
  destruct (N.eqb_spec d 45) as [->|_]; [discriminate Hd|].
  unfold unsignedDecimal.
  replace (JsString.eqb (d :: ds) (lit "Infinity")) with false.
  2:{ unfold JsString.eqb. destruct (list_eq_dec _ _ _) as [E|]; [|reflexivity].
      injection E as -> _. discriminate Hd. }
  rewrite (span_all _ _ H). cbn [exponentPart].
  rewrite app_nil_r. simpl List.length. rewrite Z.sub_0_r.
  apply ofDecimal_integer, digitsValue_nonneg.
Qed.

Lemma matchRef_spec (s g1 g2 : jsstring) :
  matchRef s = Some (g1, g2) <->
  exists c d ds,
    s = c :: d :: ds /\ isLetter c = true /\ forallb isDigit (d :: ds) = true
    /\ g1 = [c] /\ g2 = d :: ds.
Proof.
  unfold matchRef. split.
  - destruct s as [|c [|d ds]]; try discriminate.
    destruct (isLetter c) eqn:Hc; [|discriminate].
    destruct (forallb isDigit (d :: ds)) eqn:Hd; [|discriminate].
    cbn [andb]. intros H. injection H as <- <-.
    exists c, d, ds. auto.
  - intros (c & d & ds & -> & Hc & Hd & -> & ->).
    now rewrite Hc, Hd.
Qed.

(** C4, amended.  [parseRef] accepts exactly the texts made of
    one ASCII letter, of either case, followed by one or more digits; the
    address has the letter's position in the alphabet as column and the
    decimal value of the digits, leading zeros or not, as row.  Each of the
    26 letters is in the alphabet, so a matched letter never misses it. *)
Theorem parseRef_grammar (s : jsstring) (address : Address) :
  parseRef s = Some address <->
  exists c d ds,
    s = c :: d :: ds /\ isLetter c = true /\ forallb isDigit (d :: ds) = true
    /\ address = addr (letterIndex c) (digitsValue 10 (d :: ds)).
Proof.
  unfold parseRef. split.
  - destruct (matchRef s) as [[g1 g2]|] eqn:Hm; [|discriminate].
    apply matchRef_spec in Hm as (c & d & ds & -> & Hc & Hd & -> & ->).
    rewrite (alphabetToIdx_letter _ Hc), (Number_digits _ _ Hd).
    intros H. injection H as <-. exists c, d, ds. auto.
  - intros (c & d & ds & -> & Hc & Hd & ->).
    assert (Hm : matchRef (c :: d :: ds) = Some ([c], d :: ds)).
    { apply matchRef_spec. exists c, d, ds. auto. }
    rewrite Hm, (alphabetToIdx_letter _ Hc), (Number_digits _ _ Hd).
    reflexivity.
Qed.

Lemma parseRef_grammar_witness :
  parseRef (lit "z007") = Some (addr 25 7)
  /\ parseCellContents (lit "= z007 ") = Ref (addr 25 7).
Proof.
  split; [|vm_compute; reflexivity].
  apply (proj2 (parseRef_grammar (lit "z007") (addr 25 7))).
  exists 122%N, 48%N, [48%N; 55%N]. repeat split; vm_compute; reflexivity.
Defined.

(** C4 as stated does not hold: two letters before the digits do not
    parse as a reference, and the formula made of them is [Invalid]; so not
    every run of letters followed by a run of digits is a reference. *)
Lemma parseRef_two_letters :
  (forallb isLetter (lit "AA") = true
   /\ forallb isDigit (lit "1") = true
   /\ parseRef (lit "AA" ++ lit "1")%list = None
   /\ parseCellContents (lit "=AA1") = Invalid)
  /\ ~ (forall letters digits : jsstring,
          letters <> [] -> forallb isLetter letters = true ->
          digits <> [] -> forallb isDigit digits = true ->
          exists address, parseRef (letters ++ digits)%list = Some address).
Proof.
  split; [repeat split; vm_compute; reflexivity|].
  intros H.
  assert (Ha : exists address, parseRef (lit "AA" ++ lit "1")%list = Some address).
  { apply H; (vm_compute; reflexivity) || discriminate. }
  destruct Ha as [address Ha]. vm_compute in Ha. discriminate Ha.
Qed.

(** ** Literals *)

(** C8, amended.  The parser trims the raw text before it looks
    for the formula marker, so a cell is a literal when its trimmed raw text
    does not start with [=]; the value of such a cell is its raw text,
    untrimmed. *)
Theorem value_literal (fuel : nat) (state : State) (t : jsstring) :
  charAt (trim t) 0 <> Some 61%N ->
  value (S fuel) state (newCell t) = Ret (Text t).
Proof.
  intros H. cbn [value]. unfold parsed, parseCellContents. cbn [raw newCell].
  destruct (charAt (trim t) 0) as [c0|]; [|reflexivity].
  destruct (N.eqb_spec c0 61) as [->|_]; [now elim H|reflexivity].
Qed.

Lemma value_literal_witness :
  charAt (trim (lit " 12 apples ")) 0 <> Some 61%N
  /\ value 1 gridMatrix (newCell (lit " 12 apples ")) = Ret (Text (lit " 12 apples ")).
Proof.
  split; [vm_compute; discriminate|].
  apply (value_literal 0 gridMatrix (lit " 12 apples ")).
  vm_compute; discriminate.
Defined.

(** C8 as stated does not hold: a text that starts with a space and
    then the marker does not start with the marker, and its cell does not
    show the text. *)
Lemma value_literal_leading_space :
  (charAt (lit " =1") 0 = Some 32%N
   /\ value 1 gridMatrix (newCell (lit " =1")) = Ret (Text (lit "INVALID")))
  /\ ~ (forall (state : State) (t : jsstring),
          charAt t 0 <> Some 61%N ->
          forall fuel, value (S fuel) state (newCell t) = Ret (Text t)).
Proof.
  split; [split; vm_compute; reflexivity|].
  intros H.
  assert (Hv : value 1 gridMatrix (newCell (lit " =1")) = Ret (Text (lit " =1"))).
  { apply (H gridMatrix (lit " =1")). vm_compute. discriminate. }
  vm_compute in Hv. discriminate Hv.
Qed.

(** ** Numeric folds *)

(** A reference to a cell that shows a text which is not a number brings
    the identity of the fold. *)
Lemma readNumber_not_a_number (getValue : Cell -> result DisplayValue)
      (c : Cell) (s : jsstring) (def : number) :
  getValue c = Ret (Text s) ->
  isNaN (Number s) = true ->
  readNumber getValue (Occupied c) def = Ret def.
Proof.
  intros Hv Hnan. unfold readNumber, asNumber. rewrite Hv. cbn [bind].
  now rewrite Hnan.
Qed.

(** A reference to a position without a cell brings the identity too. *)
Lemma readNumber_no_cell (getValue : Cell -> result DisplayValue) (def : number) :
  readNumber getValue Null def = Ret def
  /\ readNumber getValue Undefined def = Ret def.
Proof. split; reflexivity. Qed.

(** C1.  In the grid as [makeMatrix] builds it, A1 is a cell with empty raw
    text; the empty text converts to the number 0, not to [NaN], so
    [=PRODUCT(A1,2)] evaluates to 1 * 0 * 2 = 0.  Only where the slot of A1
    holds [null] does the reference bring the identity and the product is 2. *)
Theorem product_of_empty_cell :
  let matrix := fst (onBlur 1 gridMatrix (addr 1 1) (lit "=PRODUCT(A1,2)")) in
  let sparse := [[Null; Null]; [Null; Occupied (newCell (lit "=PRODUCT(A1,2)"))]] in
  lookupCell matrix (addr 0 1) = Ret (Occupied (newCell []))
  /\ parseCellContents (lit "=PRODUCT(A1,2)") = Product [NumRef (addr 0 1); NumConst two]
  /\ Number [] = zero
  /\ readValue 2 matrix (addr 1 1) = Ret (Num zero)
  /\ readValue 2 sparse (addr 1 1) = Ret (Num two).
Proof. repeat split; vm_compute; reflexivity. Qed.

(** ** References to cells *)

(** C2.  With A1 holding [=SUM(0)] and B1 holding [=A1], A1 shows the
    number 0 and B1 shows the empty text: the [||] of the [ref] case
    replaces every falsy value, the number 0 among them. *)
Theorem ref_to_zero_shows_empty :
  let matrix1 := fst (onBlur 1 gridMatrix (addr 0 1) (lit "=SUM(0)")) in
  let matrix2 := fst (onBlur 2 matrix1 (addr 1 1) (lit "=A1")) in
  readValue 2 matrix2 (addr 0 1) = Ret (Num zero)
  /\ readValue 3 matrix2 (addr 1 1) = Ret (Text [])
  /\ truthy (Num zero) = false
  /\ truthy (Text (lit "0")) = true.
Proof. repeat split; vm_compute; reflexivity. Qed.

(** ** The mutation gate *)

(** C6.  When the blur handler rejects an edit for a cycle, the check has
    answered [true] and the handler has returned before [newValue]: the grid
    it leaves is the grid it was given, so a lookup at any address finds
    what it found before the call. *)
Theorem onBlur_rejected_unchanged (fuel : nat) (matrix : State) (address : Address)
        (edit : jsstring) :
  snd (onBlur fuel matrix address edit) = CycleRejected ->
  hasDependencyCycle fuel matrix address edit = Ret true
  /\ fst (onBlur fuel matrix address edit) = matrix
  /\ forall a, lookupCell (fst (onBlur fuel matrix address edit)) a = lookupCell matrix a.
Proof.
  unfold onBlur.
  destruct (hasDependencyCycle fuel matrix address edit) as [[|]| |]; cbn [fst snd];
    try discriminate; [auto|].
  destruct (newValue matrix address edit); discriminate.
Qed.

(** The scenario of the specification: A1 holds [=B1], and [=A1] is
    proposed for B1. *)
Lemma onBlur_rejected_unchanged_witness :
  let matrix := fst (onBlur 1 gridMatrix (addr 0 1) (lit "=B1")) in
  lookupCell matrix (addr 0 1) = Ret (Occupied (newCell (lit "=B1")))
  /\ lookupCell matrix (addr 1 1) = Ret (Occupied (newCell []))
  /\ snd (onBlur 2 matrix (addr 1 1) (lit "=A1")) = CycleRejected
  /\ fst (onBlur 2 matrix (addr 1 1) (lit "=A1")) = matrix.
Proof.
  intros matrix.
  assert (H : snd (onBlur 2 matrix (addr 1 1) (lit "=A1")) = CycleRejected)
    by (vm_compute; reflexivity).
  split; [vm_compute; reflexivity|]. split; [vm_compute; reflexivity|].
  split; [exact H|].
  exact (proj1 (proj2 (onBlur_rejected_unchanged 2 matrix (addr 1 1) (lit "=A1") H))).
Defined.

(** Whatever the outcome, short of a commit the grid is left as it was. *)
Lemma onBlur_not_committed (fuel : nat) (matrix : State) (address : Address)
      (edit : jsstring) :
  snd (onBlur fuel matrix address edit) <> Committed ->
  fst (onBlur fuel matrix address edit) = matrix.
Proof.
  unfold onBlur.
  destruct (hasDependencyCycle fuel matrix address edit) as [[|]| |]; cbn [fst snd];
    try reflexivity.
  destruct (newValue matrix address edit); cbn [fst snd]; try reflexivity.
  intros H. now elim H.
Qed.

(** * The dependency graph *)

(** ** Equality of numbers and array indices *)

Lemma SFeqb_true (a b : spec_float) :
  SFeqb a b = true ->
  a = b \/ exists s s', a = S754_zero s /\ b = S754_zero s'.
Proof.
  unfold SFeqb, SFcompare.
  destruct a as [s|s| |s m e], b as [s'|s'| |s' m' e'];
    try discriminate; try (destruct s; discriminate);
    try (destruct s'; discriminate).
  - right. eauto.
  - destruct s, s'; try discriminate; now left.
  - destruct s, s'; try discriminate;
      destruct (Z.compare_spec e e') as [->| |]; try discriminate;
      rewrite Pos.compare_cont_spec; cbn [Pos.switch_Eq];
      destruct (Pos.compare_spec m m') as [->| |]; try discriminate; now left.
Qed.

Lemma SFeqb_same (a : spec_float) : a <> S754_nan -> SFeqb a a = true.
Proof.
  unfold SFeqb, SFcompare. destruct a as [s|s| |s m e]; intros H.
  - reflexivity.
  - now destruct s.
  - now elim H.
  - destruct s; rewrite Z.compare_refl, Pos.compare_cont_spec, Pos.compare_refl;
      reflexivity.
Qed.

Lemma SFeqb_zero (s s' : bool) : SFeqb (S754_zero s) (S754_zero s') = true.
Proof. reflexivity. Qed.

Lemma SFeqb_not_nan (a b : spec_float) : SFeqb a b = true -> a <> S754_nan /\ b <> S754_nan.
Proof.
  unfold SFeqb, SFcompare.
  destruct a as [s|s| |s m e], b as [s'|s'| |s' m' e']; try discriminate;
    intros _; split; discriminate.
Qed.

Lemma number_eqb_sym (a b : number) : (a =? b)%float = true -> (b =? a)%float = true.
Proof.
  rewrite !FloatAxioms.eqb_spec. intros H.
  destruct (SFeqb_not_nan _ _ H) as [Ha Hb].
  destruct (SFeqb_true _ _ H) as [E|(s & s' & E1 & E2)].
  - rewrite E. now apply SFeqb_same.
  - rewrite E1, E2. apply SFeqb_zero.
Qed.

Lemma number_eqb_trans (a b c : number) :
  (a =? b)%float = true -> (b =? c)%float = true -> (a =? c)%float = true.
Proof.
  rewrite !FloatAxioms.eqb_spec. intros H1 H2.
  destruct (SFeqb_true _ _ H1) as [E|(s & s' & E1 & E2)].
  - now rewrite E.
  - destruct (SFeqb_true _ _ H2) as [E|(t & t' & E3 & E4)].
    + now rewrite <- E, E1, E2.
    + rewrite E1, E4. apply SFeqb_zero.
Qed.

Lemma truncZ_eqb (a b : number) : (a =? b)%float = true -> truncZ a = truncZ b.
Proof.
  rewrite FloatAxioms.eqb_spec. intros H. unfold truncZ.
  destruct (SFeqb_true _ _ H) as [E|(s & s' & E1 & E2)].
  - now rewrite E.
  - now rewrite E1, E2.
Qed.

(** Numbers that [===] holds equal name the same element of an array. *)
Lemma toIndex_eqb (a b : number) : (a =? b)%float = true -> toIndex a = toIndex b.
Proof.
  intros H. unfold toIndex. rewrite (truncZ_eqb _ _ H).
  destruct ((0 <=? truncZ b) && (truncZ b <? 2 ^ 32 - 1))%Z; [|reflexivity].
  cbn [andb].
  destruct (b =? ofZ (truncZ b))%float eqn:Hb.
  - now rewrite (number_eqb_trans _ _ _ H Hb).
  - destruct (a =? ofZ (truncZ b))%float eqn:Ha; [|reflexivity].
    apply number_eqb_sym in H.
    now rewrite (number_eqb_trans _ _ _ H Ha) in Hb.
Qed.

(** Numbers that name the same element are equal for [===]. *)
Lemma toIndex_same (a b : number) (i : Z) :
  toIndex a = Some i -> toIndex b = Some i -> (a =? b)%float = true.
Proof.
  unfold toIndex. intros Ha Hb.
  destruct (_ && (a =? _)%float) eqn:Ea; [|discriminate].
  destruct (_ && (b =? _)%float) eqn:Eb; [|discriminate].
  injection Ha as Ha. injection Hb as Hb.
  apply andb_true_iff in Ea as [_ Ea]. apply andb_true_iff in Eb as [_ Eb].
  rewrite Ha in Ea. rewrite Hb in Eb.
  apply number_eqb_sym in Eb. exact (number_eqb_trans _ _ _ Ea Eb).
Qed.

Lemma toIndex_nonneg (a : number) (i : Z) : toIndex a = Some i -> (0 <= i)%Z.
Proof.
  unfold toIndex. destruct (_ && (a =? _)%float) eqn:E; [|discriminate].
  intros H. injection H as <-.
  apply andb_true_iff in E as [E _]. apply andb_true_iff in E as [E _]. lia.
Qed.

(** ** Positions and lookups *)

Lemma element_range {A : Type} (l : list A) :
  forall i a, element l i = Some a -> (0 <= i < Z.of_nat (List.length l))%Z.
Proof.
  induction l as [|b l IH]; intros i a H; [discriminate|].
  cbn [element] in H. cbn [List.length].
  destruct (Z.eqb_spec i 0) as [->|Hne]; [lia|].
  apply IH in H. lia.
Qed.

Lemma element_defined {A : Type} (l : list A) :
  forall i, (0 <= i < Z.of_nat (List.length l))%Z -> exists a, element l i = Some a.
Proof.
  induction l as [|b l IH]; intros i H; cbn [List.length] in H; [lia|].
  cbn [element]. destruct (Z.eqb_spec i 0) as [->|Hne]; [eauto|].
  apply IH. lia.
Qed.

Lemma element_indexed {A : Type} (l : list A) :
  forall i k a, element l i = Some a -> In ((i + k)%Z, a) (indexed l k).
Proof.
  induction l as [|b l IH]; intros i k a H; [discriminate|].
  cbn [element] in H. cbn [indexed].
  destruct (Z.eqb_spec i 0) as [->|Hne].
  - injection H as ->. now left.
  - right. replace (i + k)%Z with (i - 1 + (k + 1))%Z by lia. now apply IH.
Qed.

Lemma cellAt_positions (state : State) (p : position) (cell : Cell) :
  cellAt state p = Some cell -> In p (positions state).
Proof.
  destruct p as [r c]. unfold cellAt, positions. cbn [fst snd].
  destruct (element state r) as [row|] eqn:Hr; [|discriminate].
  destruct (element row c) as [s|] eqn:Hc; [|discriminate].
  intros _. apply in_flat_map. exists (r, row). split.
  - apply element_indexed with (k := 0%Z) in Hr. now rewrite Z.add_0_r in Hr.
  - apply element_indexed with (k := 0%Z) in Hc. rewrite Z.add_0_r in Hc.
    apply in_map_iff. exists (c, s). auto.
Qed.

Lemma lookupCell_occupied (state : State) (address : Address) (cell : Cell) :
  lookupCell state address = Ret (Occupied cell) <->
  exists p, slotOf address = Some p /\ cellAt state p = Some cell.
Proof.
  unfold lookupCell, arrayGet, slotOf, cellAt. split.
  - destruct (toIndex (y address)) as [r|]; [|discriminate].
    destruct (element state r) as [row|] eqn:Hr; [|discriminate].
    destruct (toIndex (x address)) as [c|]; [|discriminate].
    destruct (element row c) as [s|] eqn:Hc; [|discriminate].
    intros H. injection H as ->. exists (r, c). cbn [fst snd].
    now rewrite Hr, Hc.
  - intros ([r c] & Hs & Hc). cbn [fst snd] in Hc.
    destruct (toIndex (y address)) as [r'|]; [|discriminate].
    destruct (toIndex (x address)) as [c'|]; [|discriminate].
    inversion Hs; subst r' c'.
    destruct (element state r) as [row|]; [|discriminate].
    destruct (element row c) as [[| |cell']|]; try discriminate.
    now injection Hc as ->.
Qed.

Lemma lookupCell_raises (state : State) (address : Address) :
  lookupCell state address = TypeError <-> arrayGet state (y address) = None.
Proof.
  unfold lookupCell. destruct (arrayGet state (y address)); split; congruence.
Qed.

Lemma lookupCell_never_out_of_fuel (state : State) (address : Address) :
  lookupCell state address <> OutOfFuel.
Proof. unfold lookupCell. destruct (arrayGet state (y address)); discriminate. Qed.

(** [===] on addresses against positions. *)
Lemma eqAddress_slotOf (a b : Address) : eqAddress a b = true -> slotOf a = slotOf b.
Proof.
  unfold eqAddress, slotOf. intros H. apply andb_true_iff in H as [Hx Hy].
  now rewrite (toIndex_eqb _ _ Hx), (toIndex_eqb _ _ Hy).
Qed.

Lemma slotOf_eqAddress (a b : Address) (p : position) :
  slotOf a = Some p -> slotOf b = Some p -> eqAddress a b = true.
Proof.
  unfold eqAddress, slotOf. intros Ha Hb.
  destruct (toIndex (y a)) as [r|] eqn:Hya; [|discriminate].
  destruct (toIndex (x a)) as [c|] eqn:Hxa; [|discriminate].
  destruct (toIndex (y b)) as [r'|] eqn:Hyb; [|discriminate].
  destruct (toIndex (x b)) as [c'|] eqn:Hxb; [|discriminate].
  inversion Ha; subst p. inversion Hb; subst r' c'.
  now rewrite (toIndex_same _ _ _ Hxa Hxb), (toIndex_same _ _ _ Hya Hyb).
Qed.

(** ** The callback loop *)

Lemma some_true {A : Type} (f : A -> result bool) (l : list A) :
  some f l = Ret true -> exists a, In a l /\ f a = Ret true.
Proof.
  induction l as [|a l IH]; cbn [some]; [discriminate|].
  destruct (f a) as [[|]| |] eqn:Ha; cbn [bind]; try discriminate.
  - intros _. exists a. split; [now left|assumption].
  - intros H. destruct (IH H) as (a' & Hin & Ha'). exists a'. split; [now right|assumption].
Qed.

Lemma some_false {A : Type} (f : A -> result bool) (l : list A) :
  some f l = Ret false -> forall a, In a l -> f a = Ret false.
Proof.
  induction l as [|a l IH]; cbn [some]; [intros _ a []|].
  destruct (f a) as [[|]| |] eqn:Ha; cbn [bind]; try discriminate.
  intros H a' [<-|Hin]; [assumption|now apply IH].
Qed.

Lemma some_fuel {A : Type} (f : A -> result bool) (l : list A) :
  (forall a, In a l -> f a <> OutOfFuel) -> some f l <> OutOfFuel.
Proof.
  induction l as [|a l IH]; cbn [some]; intros H; [discriminate|].
  pose proof (H a (or_introl eq_refl)) as Ha.
  destruct (f a) as [[|]| |]; cbn [bind]; try discriminate; [|now elim Ha].
  apply IH. intros a' Hin. apply H. now right.
Qed.

Lemma some_stable {A : Type} (f g : A -> result bool) (l : list A) :
  (forall a, In a l -> f a <> OutOfFuel -> g a = f a) ->
  some f l <> OutOfFuel -> some g l = some f l.
Proof.
  induction l as [|a l IH]; cbn [some]; intros H Hf; [reflexivity|].
  assert (Ha : f a <> OutOfFuel).
  { intros E. rewrite E in Hf. now elim Hf. }
  rewrite (H a (or_introl eq_refl) Ha).
  destruct (f a) as [[|]| |]; cbn [bind] in *; try reflexivity.
  apply IH; [|assumption]. intros a' Hin. apply H. now right.
Qed.

(** ** The cycle detector against the graph *)

Section Detector.

Variable state : State.
Variable address : Address.
Variable p : position.
Hypothesis address_slot : slotOf address = Some p.

(** An answer [true] comes with a path of committed formulas from the
    dependency to the edited position. *)
Lemma hasLoop_true (fuel : nat) :
  forall depAddress,
    hasLoop fuel state address depAddress = Ret true ->
    exists q, slotOf depAddress = Some q /\ leads state p q.
Proof.
  induction fuel as [|fuel IH]; intros dep H; [discriminate|].
  cbn [hasLoop] in H.
  destruct (eqAddress address dep) eqn:Heq.
  - exists p. split; [|constructor].
    now rewrite <- (eqAddress_slotOf _ _ Heq).
  - destruct (lookupCell state dep) as [[| |c]| |] eqn:Hl; try discriminate.
    cbn [bind] in H.
    apply lookupCell_occupied in Hl as (q & Hq & Hc).
    apply some_true in H as (dep' & Hin & Hdep').
    apply IH in Hdep' as (r & Hr & Hlead).
    exists q. split; [assumption|].
    apply leads_step with (r := r); [|exists c, dep'; auto|assumption].
    intros ->. now rewrite (slotOf_eqAddress _ _ _ address_slot Hq) in Heq.
Qed.

(** An answer [false] excludes every such path. *)
Lemma hasLoop_false (fuel : nat) :
  forall depAddress q,
    hasLoop fuel state address depAddress = Ret false ->
    slotOf depAddress = Some q -> ~ leads state p q.
Proof.
  induction fuel as [|fuel IH]; intros dep q H Hq Hlead; [discriminate|].
  cbn [hasLoop] in H.
  destruct (eqAddress address dep) eqn:Heq; [discriminate|].
  inversion Hlead as [E|q' r Hne (c & dep' & Hc & Hin & Hr) Hlead' E]; subst.
  - now rewrite (slotOf_eqAddress _ _ _ address_slot Hq) in Heq.
  - assert (Hl : lookupCell state dep = Ret (Occupied c)).
    { apply lookupCell_occupied. eauto. }
    rewrite Hl in H. cbn [bind] in H.
    pose proof (some_false _ _ H dep' Hin) as Hdep'.
    exact (IH dep' r Hdep' Hr Hlead').
Qed.

End Detector.

(** A larger bound on the depth does not change an answer. *)
Lemma hasLoop_stable (state : State) (address : Address) (fuel : nat) :
  forall fuel' depAddress,
    (fuel <= fuel')%nat ->
    hasLoop fuel state address depAddress <> OutOfFuel ->
    hasLoop fuel' state address depAddress = hasLoop fuel state address depAddress.
Proof.
  induction fuel as [|fuel IH]; intros fuel' dep Hle H; [now elim H|].
  destruct fuel' as [|fuel']; [lia|].
  cbn [hasLoop] in *.
  destruct (eqAddress address dep); [reflexivity|].
  destruct (lookupCell state dep) as [[| |c]| |]; cbn [bind] in *; try reflexivity.
  apply some_stable; [|assumption].
  intros dep' _ Hdep'. apply IH; [lia|assumption].
Qed.

(** ** Chains of formulas in a grid without cycle *)

Lemma dependsOn_trans (state : State) (a b c : position) :
  dependsOn state a b -> dependsOn state b c -> dependsOn state a c.
Proof.
  induction 1 as [a b Hab|a b b' Hab _ IH]; intros Hbc.
  - now apply dependsOn_step with (q := b).
  - apply dependsOn_step with (q := b); [assumption|now apply IH].
Qed.

Lemma dependsOn_snoc (state : State) (a b c : position) :
  dependsOn state a b -> edge state b c -> dependsOn state a c.
Proof.
  intros Hab Hbc. apply dependsOn_trans with (b := b); [assumption|now constructor].
Qed.

(** In a chain every earlier position reaches the latest one. *)
Lemma chain_dependsOn (state : State) (path : list position) :
  forall q, chain state (q :: path) -> forall r, In r path -> dependsOn state r q.
Proof.
  induction path as [|q' path IH]; intros q Hc r Hin; [destruct Hin|].
  inversion Hc as [| |? ? ? Hedge Hc']; subst.
  destruct Hin as [<-|Hin].
  - now constructor.
  - apply dependsOn_snoc with (b := q'); [|assumption]. now apply IH.
Qed.

Lemma chain_NoDup (state : State) (path : list position) :
  acyclic state -> chain state path -> NoDup path.
Proof.
  intros Hac. induction path as [|q path IH]; intros Hc; [constructor|].
  constructor.
  - intros Hin. apply (Hac q). exact (chain_dependsOn _ _ _ Hc q Hin).
  - apply IH. inversion Hc; subst; [constructor|assumption].
Qed.

(** A chain through cells of the grid is no longer than the grid has
    positions. *)
Lemma chain_length (state : State) (path : list position) :
  acyclic state -> chain state path ->
  Forall (fun q => exists cell, cellAt state q = Some cell) path ->
  (List.length path <= slotCount state)%nat.
Proof.
  intros Hac Hc Hall. apply NoDup_incl_length.
  - now apply chain_NoDup with (state := state).
  - intros q Hin. rewrite Forall_forall in Hall.
    destruct (Hall q Hin) as [cell Hcell].
    now apply cellAt_positions with (cell := cell).
Qed.

Lemma hasLoop_fuel (state : State) (address : Address) :
  acyclic state ->
  forall fuel path depAddress,
    chain state path ->
    Forall (fun q => exists cell, cellAt state q = Some cell) path ->
    linked state path depAddress ->
    (slotCount state < fuel + List.length path)%nat ->
    hasLoop fuel state address depAddress <> OutOfFuel.
Proof.
  intros Hac. induction fuel as [|fuel IH]; intros path dep Hc Hall Hlink Hlen.
  - pose proof (chain_length _ _ Hac Hc Hall). lia.
  - cbn [hasLoop]. destruct (eqAddress address dep); [discriminate|].
    destruct (lookupCell state dep) as [[| |c]| |] eqn:Hl; cbn [bind];
      try discriminate;
      try (now elim (lookupCell_never_out_of_fuel state dep)).
    apply lookupCell_occupied in Hl as (q & Hq & Hcell).
    apply some_fuel. intros dep' Hin.
    apply IH with (path := q :: path).
    + destruct path as [|q' path]; [constructor|].
      constructor; [|assumption].
      destruct Hlink as (c' & Hc' & Hin'). exists c', dep. auto.
    + constructor; [eauto|assumption].
    + exists c. auto.
    + cbn [List.length]. lia.
Qed.

(** ** What a commit changes *)

Lemma element_updateRow (state : State) (f : list slot -> list slot) :
  forall i i',
    element (updateRow state i f) i'
    = if (i' =? i)%Z then option_map f (element state i') else element state i'.
Proof.
  induction state as [|row state IH]; intros i i'; cbn [updateRow element].
  - destruct (i' =? i)%Z; reflexivity.
  - destruct (Z.eqb_spec i 0) as [->|Hi]; cbn [element].
    + destruct (Z.eqb_spec i' 0); reflexivity.
    + destruct (Z.eqb_spec i' 0) as [->|Hi'].
      * destruct (Z.eqb_spec 0 i); [lia|reflexivity].
      * rewrite IH.
        destruct (Z.eqb_spec (i' - 1) (i - 1)), (Z.eqb_spec i' i);
          try lia; reflexivity.
Qed.

Lemma length_updateRow (state : State) (f : list slot -> list slot) :
  forall i, List.length (updateRow state i f) = List.length state.
Proof.
  induction state as [|row state IH]; intros i; cbn [updateRow]; [reflexivity|].
  destruct (i =? 0)%Z; cbn [List.length]; [reflexivity|]. now rewrite IH.
Qed.

Lemma element_setElement (s : slot) (row : list slot) :
  forall j j',
    (j < List.length row)%nat ->
    element (setElement row j s) j'
    = if (j' =? Z.of_nat j)%Z then Some s else element row j'.
Proof.
  induction row as [|s0 row IH]; intros j j' Hj; cbn [List.length] in Hj; [lia|].
  destruct j as [|j]; cbn [setElement element].
  - change (Z.of_nat 0) with 0%Z. destruct (Z.eqb_spec j' 0); reflexivity.
  - destruct (Z.eqb_spec j' 0) as [->|Hj'].
    + reflexivity.
    + rewrite IH by lia.
      destruct (Z.eqb_spec (j' - 1) (Z.of_nat j)), (Z.eqb_spec j' (Z.of_nat (S j)));
        try lia; reflexivity.
Qed.

Lemma length_setElement (s : slot) (row : list slot) :
  forall j, (j < List.length row)%nat -> List.length (setElement row j s) = List.length row.
Proof.
  induction row as [|s0 row IH]; intros j Hj; cbn [List.length] in Hj; [lia|].
  destruct j as [|j]; cbn [setElement List.length]; [reflexivity|].
  rewrite IH by lia. reflexivity.
Qed.

(** The grid that [newValue] returns: the slot of the address, which held
    a cell or [null], now holds a cell with the new raw text. *)
Lemma newValue_result (state state' : State) (address : Address) (value : jsstring) :
  newValue state address value = Ret state' ->
  exists r c row s,
    toIndex (y address) = Some r /\ toIndex (x address) = Some c
    /\ element state r = Some row /\ element row c = Some s
    /\ state' = updateRow state r
                  (fun row => setElement row (Z.to_nat c) (Occupied (newCell value))).
Proof.
  unfold newValue, lookupCell, insertCell, arrayGet.
  destruct (toIndex (y address)) as [r|]; [|discriminate].
  destruct (element state r) as [row|] eqn:Hr; [|discriminate].
  cbn [bind].
  destruct (toIndex (x address)) as [c|].
  - destruct (element row c) as [s|] eqn:Hc; [|discriminate].
    intros H. exists r, c, row, s.
    destruct s; try discriminate; injection H as <-; auto.
  - discriminate.
Qed.

Lemma newValue_cellAt (state state' : State) (address : Address) (value : jsstring) :
  newValue state address value = Ret state' ->
  exists p,
    slotOf address = Some p
    /\ cellAt state' p = Some (newCell value)
    /\ (forall q, q <> p -> cellAt state' q = cellAt state q)
    /\ (forall i, element state' i = None <-> element state i = None).
Proof.
  intros H. apply newValue_result in H as (r & c & row & s & Hy & Hx & Hr & Hc & ->).
  pose proof (element_range _ _ _ Hc) as Hrange.
  assert (Hlt : (Z.to_nat c < List.length row)%nat) by lia.
  exists (r, c). unfold slotOf, cellAt. rewrite Hy, Hx. cbn [fst snd].
  split; [reflexivity|]. split; [|split].
  - rewrite element_updateRow, Z.eqb_refl, Hr. cbn [option_map].
    rewrite element_setElement by assumption.
    replace (Z.of_nat (Z.to_nat c)) with c by lia.
    now rewrite Z.eqb_refl.
  - intros [r' c'] Hne. cbn [fst snd]. rewrite element_updateRow.
    destruct (Z.eqb_spec r' r) as [->|Hr']; [|reflexivity].
    rewrite Hr. cbn [option_map]. rewrite element_setElement by assumption.
    replace (Z.of_nat (Z.to_nat c)) with c by lia.
    destruct (Z.eqb_spec c' c) as [->|Hc']; [now elim Hne|reflexivity].
  - intros i. rewrite element_updateRow.
    destruct (Z.eqb_spec i r) as [->|_]; [|reflexivity].
    rewrite Hr. cbn [option_map]. split; discriminate.
Qed.

Lemma newValue_never_out_of_fuel (state : State) (address : Address) (value : jsstring) :
  newValue state address value <> OutOfFuel.
Proof.
  unfold newValue, lookupCell, insertCell.
  destruct (arrayGet state (y address)); cbn [bind]; [|discriminate].
  destruct (arrayGet l (x address)) as [[| |c]|]; try discriminate;
    destruct (toIndex (y address)); discriminate.
Qed.

(** ** The detector decides self-dependency *)

Lemma leads_dependsOn (state : State) (p q : position) :
  leads state p q -> q = p \/ dependsOn state q p.
Proof.
  induction 1 as [|q r _ Hedge _ IH]; [now left|].
  right. destruct IH as [->|IH]; [now constructor|].
  now apply dependsOn_step with (q := r).
Qed.

Lemma dependsOn_leads (state : State) (p q : position) :
  dependsOn state q p -> leads state p q.
Proof.
  induction 1 as [q p Hedge|q r p Hedge _ IH].
  - destruct (position_eq_dec q p) as [->|Hne]; [constructor|].
    apply leads_step with (r := p); [assumption|assumption|constructor].
  - destruct (position_eq_dec q p) as [->|Hne]; [constructor|].
    now apply leads_step with (r := r).
Qed.

Lemma leads_transfer (state state' : State) (p q : position) :
  (forall r, r <> p -> cellAt state' r = cellAt state r) ->
  leads state p q -> leads state' p q.
Proof.
  intros Hsame. induction 1 as [|q r Hne (c & dep & Hc & Hin & Hr) _ IH];
    [constructor|].
  apply leads_step with (r := r); [assumption| |assumption].
  exists c, dep. rewrite (Hsame q Hne). auto.
Qed.

(** A cycle through the edited position, in the grid with the candidate
    committed, starts with a dependency of the candidate that led to it
    before the commit. *)
Lemma cycle_through_edit (state state' : State) (address : Address)
      (value : jsstring) (p : position) :
  newValue state address value = Ret state' ->
  slotOf address = Some p ->
  dependsOn state' p p ->
  exists dep q,
    In dep (dependencies (parseCellContents value))
    /\ slotOf dep = Some q /\ leads state p q.
Proof.
  intros Hnew Hp Hcycle.
  apply newValue_cellAt in Hnew as (p' & Hp' & Hcell & Hsame & _).
  assert (p' = p) by congruence. subst p'.
  assert (Hfirst : exists q, edge state' p q /\ leads state' p q).
  { inversion Hcycle as [? q Hedge|? q ? Hedge Hrest]; subst.
    - exists p. split; [assumption|constructor].
    - exists q. split; [assumption|now apply dependsOn_leads]. }
  destruct Hfirst as (q & (c & dep & Hc & Hin & Hq) & Hlead).
  rewrite Hcell in Hc. injection Hc as <-.
  exists dep, q. split; [exact Hin|]. split; [assumption|].
  apply leads_transfer with (state := state'); [|assumption].
  intros r Hr. symmetry. now apply Hsame.
Qed.

(** Whenever the detector returns a boolean, it is [true] exactly when
    the cell at the edited position depends on itself in the grid that has
    the candidate committed there: a reference of the candidate to its own
    position, or a chain from one of its references through the formulas
    committed so far.  Whether the detector returns a boolean is settled
    below, by [hasDependencyCycle_decides] for the candidates that name rows
    of the grid. *)
Theorem hasDependencyCycle_correct (fuel : nat) (state state' : State)
        (address : Address) (value : jsstring) (p : position) (answer : bool) :
  hasDependencyCycle fuel state address value = Ret answer ->
  newValue state address value = Ret state' ->
  slotOf address = Some p ->
  answer = true <-> dependsOn state' p p.
Proof.
  intros Hans Hnew Hp. split.
  - intros ->. unfold hasDependencyCycle in Hans.
    apply some_true in Hans as (dep & Hin & Hdep).
    apply (hasLoop_true state address p Hp) in Hdep as (q & Hq & Hlead).
    apply newValue_cellAt in Hnew as (p' & Hp' & Hcell & Hsame & _).
    assert (p' = p) by congruence. subst p'.
    assert (Hedge : edge state' p q) by (exists (newCell value), dep; auto).
    apply leads_transfer with (state' := state') in Hlead; [|assumption].
    destruct (leads_dependsOn _ _ _ Hlead) as [->|Hqp]; [now constructor|].
    now apply dependsOn_step with (q := q).
  - intros Hcycle. destruct answer; [reflexivity|]. exfalso.
    destruct (cycle_through_edit _ _ _ _ _ Hnew Hp Hcycle) as (dep & q & Hin & Hq & Hlead).
    unfold hasDependencyCycle in Hans.
    pose proof (some_false _ _ Hans dep Hin) as Hdep.
    exact (hasLoop_false state address p Hp fuel dep q Hdep Hq Hlead).
Qed.

Lemma hasDependencyCycle_correct_witness :
  let state' := match newValue gridMatrix (addr 0 1) (lit "=A1") with
                | Ret s => s
                | _ => []
                end in
  hasDependencyCycle 1 gridMatrix (addr 0 1) (lit "=A1") = Ret true
  /\ newValue gridMatrix (addr 0 1) (lit "=A1") = Ret state'
  /\ slotOf (addr 0 1) = Some (1, 0)%Z
  /\ (true = true <-> dependsOn state' (1, 0)%Z (1, 0)%Z).
Proof.
  intros state'.
  assert (H1 : hasDependencyCycle 1 gridMatrix (addr 0 1) (lit "=A1") = Ret true)
    by (vm_compute; reflexivity).
  assert (H2 : newValue gridMatrix (addr 0 1) (lit "=A1") = Ret state')
    by (vm_compute; reflexivity).
  assert (H3 : slotOf (addr 0 1) = Some (1, 0)%Z) by (vm_compute; reflexivity).
  split; [exact H1|]. split; [exact H2|]. split; [exact H3|].
  exact (hasDependencyCycle_correct 1 gridMatrix state' (addr 0 1) (lit "=A1")
           (1, 0)%Z true H1 H2 H3).
Defined.

(** ** Grids that the program goes through *)

Lemma element_In {A : Type} (l : list A) :
  forall i a, element l i = Some a -> In a l.
Proof.
  induction l as [|b l IH]; intros i a H; [discriminate|].
  cbn [element] in H. destruct (i =? 0)%Z.
  - injection H as ->. now left.
  - right. now apply IH with (i := (i - 1)%Z).
Qed.

Lemma makeMatrix_cellAt (cols rows : nat) (p : position) (cell : Cell) :
  cellAt (makeMatrix cols rows) p = Some cell -> cell = newCell [].
Proof.
  unfold cellAt, makeMatrix.
  destruct (element _ (fst p)) as [row|] eqn:Hr; [|discriminate].
  apply element_In, repeat_spec in Hr. subst row.
  destruct (element _ (snd p)) as [s|] eqn:Hc; [|discriminate].
  apply element_In, repeat_spec in Hc. subst s.
  intros H. now injection H as <-.
Qed.

Lemma makeMatrix_no_edge (cols rows : nat) (p q : position) :
  ~ edge (makeMatrix cols rows) p q.
Proof.
  intros (c & dep & Hc & Hin & _).
  apply makeMatrix_cellAt in Hc. subst c. exact Hin.
Qed.

Lemma makeMatrix_acyclic (cols rows : nat) : acyclic (makeMatrix cols rows).
Proof.
  intros p H. inversion H as [? ? Hedge|? q ? Hedge _]; subst;
    exact (makeMatrix_no_edge _ _ _ _ Hedge).
Qed.

Lemma makeMatrix_refsInGrid (cols rows : nat) : refsInGrid (makeMatrix cols rows).
Proof.
  intros p c dep Hc Hin. apply makeMatrix_cellAt in Hc. subst c. destruct Hin.
Qed.

Lemma makeMatrix_fullGrid (cols rows : nat) : fullGrid cols rows (makeMatrix cols rows).
Proof.
  unfold fullGrid, makeMatrix. split; [apply repeat_length|].
  apply Forall_forall. intros row Hrow. apply repeat_spec in Hrow. subst row.
  split; [apply repeat_length|].
  apply Forall_forall. intros s Hs. apply repeat_spec in Hs. subst s. eauto.
Qed.

Lemma Forall_updateRow (P : list slot -> Prop) (f : list slot -> list slot)
      (state : State) :
  Forall P state -> (forall row, P row -> P (f row)) ->
  forall i, Forall P (updateRow state i f).
Proof.
  intros Hall Hf. induction Hall as [|row state Hrow Hrest IH]; intros i;
    cbn [updateRow]; [constructor|].
  destruct (i =? 0)%Z; constructor; auto.
Qed.

Lemma Forall_setElement (P : slot -> Prop) (s : slot) (row : list slot) :
  Forall P row -> P s ->
  forall j, (j < List.length row)%nat -> Forall P (setElement row j s).
Proof.
  intros Hall Hs. induction Hall as [|s0 row Hs0 Hrest IH]; intros j Hj;
    cbn [List.length] in Hj; [lia|].
  destruct j as [|j]; cbn [setElement]; constructor; auto.
  apply IH. lia.
Qed.

Lemma newValue_fullGrid (cols rows : nat) (state state' : State)
      (address : Address) (value : jsstring) :
  fullGrid cols rows state ->
  newValue state address value = Ret state' ->
  fullGrid cols rows state'.
Proof.
  intros [Hlen Hall] H.
  apply newValue_result in H as (r & c & row & s & _ & _ & Hr & Hc & ->).
  assert (Hcols : (Z.to_nat c < cols)%nat).
  { apply element_In in Hr. rewrite Forall_forall in Hall.
    destruct (Hall row Hr) as [<- _].
    pose proof (element_range _ _ _ Hc). lia. }
  split; [now rewrite length_updateRow|].
  apply Forall_updateRow; [assumption|].
  intros row' [Hlen' Hocc]. split.
  - rewrite length_setElement; [assumption|lia].
  - apply Forall_setElement; [assumption|eauto|lia].
Qed.

Lemma onBlur_cases (fuel : nat) (matrix : State) (address : Address) (edit : jsstring) :
  fst (onBlur fuel matrix address edit) = matrix
  \/ (hasDependencyCycle fuel matrix address edit = Ret false
      /\ newValue matrix address edit = Ret (fst (onBlur fuel matrix address edit))).
Proof.
  unfold onBlur.
  destruct (hasDependencyCycle fuel matrix address edit) as [[|]| |]; try now left.
  destruct (newValue matrix address edit); [right|left|left]; auto.
Qed.

Lemma reachable_fullGrid (cols rows : nat) (state : State) :
  reachable cols rows state -> fullGrid cols rows state.
Proof.
  induction 1 as [|matrix fuel address edit _ IH]; [apply makeMatrix_fullGrid|].
  destruct (onBlur_cases fuel matrix address edit) as [->|[_ Hnew]]; [assumption|].
  exact (newValue_fullGrid _ _ _ _ _ _ IH Hnew).
Qed.

Lemma fullGrid_lookup (cols rows : nat) (state : State) (address : Address) :
  fullGrid cols rows state -> inBounds cols rows address ->
  exists cell, lookupCell state address = Ret (Occupied cell).
Proof.
  intros [Hlen Hall] (r & c & Hs & Hr & Hc).
  assert (H0 : (0 <= r /\ 0 <= c)%Z).
  { unfold slotOf in Hs.
    destruct (toIndex (y address)) as [r'|] eqn:Hy; [|discriminate].
    destruct (toIndex (x address)) as [c'|] eqn:Hx; [|discriminate].
    inversion Hs; subst. split; eapply toIndex_nonneg; eauto. }
  destruct (element_defined state r) as [row Hrow]; [lia|].
  rewrite Forall_forall in Hall.
  destruct (Hall row (element_In _ _ _ Hrow)) as [Hcols Hocc].
  destruct (element_defined row c) as [s Hslot]; [lia|].
  rewrite Forall_forall in Hocc.
  destruct (Hocc s (element_In _ _ _ Hslot)) as [cell ->].
  exists cell. apply lookupCell_occupied. exists (r, c). split; [assumption|].
  unfold cellAt. cbn [fst snd]. now rewrite Hrow, Hslot.
Qed.

(** C10.  [makeMatrix] puts a cell with empty raw text into every slot,
    and whatever edits the grid has gone through since, a lookup at an
    address inside the grid returns a cell: neither [null] nor [undefined],
    so the branches of the readers for a missing cell are not taken there. *)
Theorem lookupCell_in_bounds (cols rows : nat) (state : State) (address : Address) :
  reachable cols rows state ->
  inBounds cols rows address ->
  lookupCell (makeMatrix cols rows) address = Ret (Occupied (newCell []))
  /\ (exists cell, lookupCell state address = Ret (Occupied cell))
  /\ lookupCell state address <> Ret Null
  /\ lookupCell state address <> Ret Undefined.
Proof.
  intros Hreach Hin.
  destruct (fullGrid_lookup _ _ _ _ (reachable_fullGrid _ _ _ Hreach) Hin) as [cell H].
  split; [|split; [eauto|rewrite H; split; discriminate]].
  destruct (fullGrid_lookup _ _ _ _ (makeMatrix_fullGrid cols rows) Hin) as [cell0 H0].
  rewrite H0. apply lookupCell_occupied in H0 as (p & _ & Hc).
  apply makeMatrix_cellAt in Hc. now subst cell0.
Qed.

Lemma lookupCell_in_bounds_witness :
  let state := fst (onBlur 1 gridMatrix (addr 0 1) (lit "=B1")) in
  reachable (List.length alphabet) 1000 state
  /\ inBounds (List.length alphabet) 1000 (addr 0 1)
  /\ lookupCell gridMatrix (addr 0 1) = Ret (Occupied (newCell []))
  /\ (exists cell, lookupCell state (addr 0 1) = Ret (Occupied cell))
  /\ lookupCell state (addr 0 1) <> Ret Null
  /\ lookupCell state (addr 0 1) <> Ret Undefined.
Proof.
  intros state.
  assert (H1 : reachable (List.length alphabet) 1000 state)
    by (apply reachable_edit, reachable_init).
  assert (H2 : inBounds (List.length alphabet) 1000 (addr 0 1)).
  { exists 1%Z, 0%Z. split; [vm_compute; reflexivity|]. split; reflexivity. }
  split; [exact H1|]. split; [exact H2|].
  exact (lookupCell_in_bounds (List.length alphabet) 1000 state (addr 0 1) H1 H2).
Defined.

Lemma hasLoop_false_lookup (fuel : nat) (state : State) (address dep : Address) :
  hasLoop fuel state address dep = Ret false -> lookupCell state dep <> TypeError.
Proof.
  destruct fuel as [|fuel]; [discriminate|]. cbn [hasLoop].
  destruct (eqAddress address dep); [discriminate|].
  intros H E. rewrite E in H. discriminate.
Qed.

Lemma commit_refsInGrid (fuel : nat) (state state' : State) (address : Address)
      (value : jsstring) :
  refsInGrid state ->
  hasDependencyCycle fuel state address value = Ret false ->
  newValue state address value = Ret state' ->
  refsInGrid state'.
Proof.
  intros Hrefs Hans Hnew.
  apply newValue_cellAt in Hnew as (p & Hp & Hcell & Hsame & Hrows).
  assert (Hraise : forall dep, lookupCell state dep <> TypeError ->
                               lookupCell state' dep <> TypeError).
  { intros dep H E. apply H. apply lookupCell_raises in E. apply lookupCell_raises.
    unfold arrayGet in *. destruct (toIndex (y dep)); [|reflexivity].
    now apply Hrows. }
  intros q c dep Hc Hin. apply Hraise.
  destruct (position_eq_dec q p) as [->|Hne].
  - rewrite Hcell in Hc. injection Hc as <-.
    apply hasLoop_false_lookup with (fuel := fuel) (address := address).
    exact (some_false _ _ Hans dep Hin).
  - rewrite (Hsame q Hne) in Hc. exact (Hrefs q c dep Hc Hin).
Qed.

(** A path of the grid after a commit is a path of the grid before it, or
    goes through the edited position. *)
Lemma dependsOn_split (state state' : State) (p : position) :
  (forall q, q <> p -> cellAt state' q = cellAt state q) ->
  forall a b,
    dependsOn state' a b ->
    dependsOn state a b
    \/ ((a = p \/ dependsOn state' a p) /\ dependsOn state' p b).
Proof.
  intros Hsame a b H.
  induction H as [a b Hedge|a q b Hedge Hrest IH].
  - destruct (position_eq_dec a p) as [->|Hne].
    + right. split; [now left|now constructor].
    + left. constructor. destruct Hedge as (c & dep & Hc & Hin & Hq).
      exists c, dep. rewrite <- (Hsame a Hne). auto.
  - destruct (position_eq_dec a p) as [->|Hne].
    + right. split; [now left|]. now apply dependsOn_step with (q := q).
    + assert (Hedge' : edge state a q).
      { destruct Hedge as (c & dep & Hc & Hin & Hq).
        exists c, dep. rewrite <- (Hsame a Hne). auto. }
      destruct IH as [IH|[[->|Hqp] Hpb]].
      * left. now apply dependsOn_step with (q := q).
      * right. split; [right; now constructor|assumption].
      * right. split; [right; now apply dependsOn_step with (q := q)|assumption].
Qed.

Lemma commit_acyclic (fuel : nat) (state state' : State) (address : Address)
      (value : jsstring) :
  acyclic state ->
  hasDependencyCycle fuel state address value = Ret false ->
  newValue state address value = Ret state' ->
  acyclic state'.
Proof.
  intros Hac Hans Hnew r Hcycle.
  destruct (newValue_cellAt _ _ _ _ Hnew) as (p & Hp & _ & Hsame & _).
  destruct (dependsOn_split _ _ _ Hsame _ _ Hcycle) as [H|[Hrp Hpr]].
  - exact (Hac r H).
  - assert (Hpp : dependsOn state' p p).
    { destruct Hrp as [->|Hrp]; [assumption|].
      now apply dependsOn_trans with (b := r). }
    destruct (cycle_through_edit _ _ _ _ _ Hnew Hp Hpp) as (dep & q & Hin & Hq & Hlead).
    pose proof (some_false _ _ Hans dep Hin) as Hdep.
    exact (hasLoop_false state address p Hp fuel dep q Hdep Hq Hlead).
Qed.

(** The gate keeps the committed formulas inside the grid and free of
    cycles. *)
Lemma reachable_sound (cols rows : nat) (state : State) :
  reachable cols rows state -> refsInGrid state /\ acyclic state.
Proof.
  induction 1 as [|matrix fuel address edit _ [IHr IHa]].
  - split; [apply makeMatrix_refsInGrid|apply makeMatrix_acyclic].
  - destruct (onBlur_cases fuel matrix address edit) as [->|[Hans Hnew]]; [now split|].
    split.
    + exact (commit_refsInGrid _ _ _ _ _ IHr Hans Hnew).
    + exact (commit_acyclic _ _ _ _ _ IHa Hans Hnew).
Qed.

(** ** Termination of the detector *)

Lemma hasDependencyCycle_stops (state : State) (address : Address)
      (value : jsstring) :
  acyclic state ->
  exists outcome,
    outcome <> OutOfFuel
    /\ forall fuel, (slotCount state < fuel)%nat ->
                    hasDependencyCycle fuel state address value = outcome.
Proof.
  intros Hac.
  assert (Hfuel : forall fuel dep, (slotCount state < fuel)%nat ->
                                   hasLoop fuel state address dep <> OutOfFuel).
  { intros fuel dep Hlt.
    apply hasLoop_fuel with (path := []); try constructor; try assumption.
    cbn [List.length]. lia. }
  exists (hasDependencyCycle (S (slotCount state)) state address value). split.
  - apply some_fuel. intros dep _. apply Hfuel. lia.
  - intros fuel Hlt. unfold hasDependencyCycle. apply some_stable.
    + intros dep _ Hdep. apply hasLoop_stable; [lia|assumption].
    + apply some_fuel. intros dep _. apply Hfuel. lia.
Qed.

(** C9.  In a grid whose committed formulas have no cycle, the detector
    comes to an end for every edited address and every candidate text: a
    recursion depth of one more than the number of grid positions is never
    exceeded, and any larger bound gives the same outcome, an answer or the
    [TypeError] of a reference to a row outside the grid. *)
Theorem hasDependencyCycle_terminates (state : State) (address : Address)
        (value : jsstring) :
  acyclic state ->
  exists outcome,
    outcome <> OutOfFuel
    /\ (forall fuel, (slotCount state < fuel)%nat ->
                     hasDependencyCycle fuel state address value = outcome)
    /\ forall fuel depAddress,
         (slotCount state < fuel)%nat ->
         hasLoop fuel state address depAddress <> OutOfFuel.
Proof.
  intros Hac.
  destruct (hasDependencyCycle_stops state address value Hac) as (outcome & Hout & Hall).
  exists outcome. split; [assumption|]. split; [assumption|].
  intros fuel dep Hlt.
  apply hasLoop_fuel with (path := []); try constructor; try assumption.
  cbn [List.length]. lia.
Qed.

(** The grid in which A1 holds [=B1] has no cycle; checking [=A1] for B1
    ends, with the answer [true]. *)
Lemma hasDependencyCycle_terminates_witness :
  let state := fst (onBlur 1 gridMatrix (addr 0 1) (lit "=B1")) in
  acyclic state
  /\ hasDependencyCycle 2 state (addr 1 1) (lit "=A1") = Ret true
  /\ exists outcome,
       outcome <> OutOfFuel
       /\ (forall fuel, (slotCount state < fuel)%nat ->
                        hasDependencyCycle fuel state (addr 1 1) (lit "=A1") = outcome)
       /\ forall fuel depAddress,
            (slotCount state < fuel)%nat ->
            hasLoop fuel state (addr 1 1) depAddress <> OutOfFuel.
Proof.
  intros state.
  assert (H : acyclic state).
  { apply (reachable_sound (List.length alphabet) 1000).
    apply reachable_edit, reachable_init. }
  split; [exact H|]. split; [vm_compute; reflexivity|].
  exact (hasDependencyCycle_terminates state (addr 1 1) (lit "=A1") H).
Defined.

Lemma some_no_raise {A : Type} (f : A -> result bool) (l : list A) :
  (forall a, In a l -> f a <> TypeError) -> some f l <> TypeError.
Proof.
  induction l as [|a l IH]; cbn [some]; intros H; [discriminate|].
  pose proof (H a (or_introl eq_refl)) as Ha.
  destruct (f a) as [[|]| |]; cbn [bind]; try discriminate; [|now elim Ha].
  apply IH. intros a' Hin. apply H. now right.
Qed.

Lemma hasLoop_no_raise (state : State) (address : Address) :
  refsInGrid state ->
  forall fuel depAddress,
    lookupCell state depAddress <> TypeError ->
    hasLoop fuel state address depAddress <> TypeError.
Proof.
  intros Hrefs. induction fuel as [|fuel IH]; intros dep Hdep; [discriminate|].
  cbn [hasLoop]. destruct (eqAddress address dep); [discriminate|].
  destruct (lookupCell state dep) as [[| |c]| |] eqn:Hl; cbn [bind];
    try discriminate; [|now elim Hdep].
  apply lookupCell_occupied in Hl as (q & _ & Hc).
  apply some_no_raise. intros dep' Hin. apply IH.
  exact (Hrefs q c dep' Hc Hin).
Qed.

(** In a grid that the program has gone through, the detector answers
    every candidate whose references name rows of the grid. *)
Lemma hasDependencyCycle_answers (cols rows : nat) (state : State)
      (address : Address) (value : jsstring) :
  reachable cols rows state ->
  (forall dep, In dep (dependencies (parseCellContents value)) ->
               lookupCell state dep <> TypeError) ->
  exists answer,
    forall fuel, (slotCount state < fuel)%nat ->
                 hasDependencyCycle fuel state address value = Ret answer.
Proof.
  intros Hreach Hdeps.
  destruct (reachable_sound _ _ _ Hreach) as [Hrefs Hac].
  destruct (hasDependencyCycle_stops state address value Hac) as (outcome & Hout & Hall).
  assert (Hraise : outcome <> TypeError).
  { rewrite <- (Hall (S (slotCount state))) by lia.
    apply some_no_raise. intros dep Hin.
    apply hasLoop_no_raise; [assumption|now apply Hdeps]. }
  destruct outcome as [answer| |]; [eauto|now elim Hraise|now elim Hout].
Qed.

(** In a grid that the program has gone through, for a candidate whose
    references name rows of the grid, the detector returns a boolean at
    every depth bound above the number of grid positions, and that boolean
    is [true] exactly when the edited cell would depend on itself. *)
Lemma hasDependencyCycle_decides (cols rows : nat) (state state' : State)
      (address : Address) (value : jsstring) (p : position) :
  reachable cols rows state ->
  (forall dep, In dep (dependencies (parseCellContents value)) ->
               lookupCell state dep <> TypeError) ->
  newValue state address value = Ret state' ->
  slotOf address = Some p ->
  exists answer,
    (forall fuel, (slotCount state < fuel)%nat ->
                  hasDependencyCycle fuel state address value = Ret answer)
    /\ (answer = true <-> dependsOn state' p p).
Proof.
  intros Hreach Hdeps Hnew Hp.
  destruct (hasDependencyCycle_answers cols rows state address value Hreach Hdeps)
    as [answer Hans].
  exists answer. split; [exact Hans|].
  apply hasDependencyCycle_correct
    with (fuel := S (slotCount state)) (state := state) (address := address)
         (value := value); [apply Hans; lia|assumption|assumption].
Qed.

(** A chain: with [=B1] committed in A1, the text [=A1] proposed for B1 is
    answered [true] at every depth bound above the number of positions, and
    at no bound below two, the length of the chain that has to be
    followed. *)
Lemma hasDependencyCycle_decides_chain :
  let state := fst (onBlur 1 gridMatrix (addr 0 1) (lit "=B1")) in
  let state' := match newValue state (addr 1 1) (lit "=A1") with
                | Ret s => s
                | _ => []
                end in
  lookupCell state (addr 0 1) = Ret (Occupied (newCell (lit "=B1")))
  /\ hasDependencyCycle 1 state (addr 1 1) (lit "=A1") = OutOfFuel
  /\ hasDependencyCycle 2 state (addr 1 1) (lit "=A1") = Ret true
  /\ (forall fuel, (slotCount state < fuel)%nat ->
                   hasDependencyCycle fuel state (addr 1 1) (lit "=A1") = Ret true)
  /\ dependsOn state' (1, 1)%Z (1, 1)%Z.
Proof.
  intros state state'.
  assert (H1 : reachable (List.length alphabet) 1000 state)
    by (apply reachable_edit; apply reachable_init).
  assert (H2 : forall dep, In dep (dependencies (parseCellContents (lit "=A1"))) ->
                           lookupCell state dep <> TypeError).
  { intros dep [<-|[]]. vm_compute. discriminate. }
  assert (H3 : newValue state (addr 1 1) (lit "=A1") = Ret state')
    by (vm_compute; reflexivity).
  assert (H4 : slotOf (addr 1 1) = Some (1, 1)%Z) by (vm_compute; reflexivity).
  assert (H5 : hasDependencyCycle 2 state (addr 1 1) (lit "=A1") = Ret true)
    by (vm_compute; reflexivity).
  destruct (hasDependencyCycle_decides (List.length alphabet) 1000 state state'
              (addr 1 1) (lit "=A1") (1, 1)%Z H1 H2 H3 H4) as (answer & Hall & Hiff).
  assert (Hfuel : forall fuel, (2 <= fuel)%nat ->
                    hasDependencyCycle fuel state (addr 1 1) (lit "=A1") = Ret true).
  { intros fuel Hle. rewrite <- H5. unfold hasDependencyCycle. apply some_stable.
    - intros a _ Ha. apply hasLoop_stable; [exact Hle|exact Ha].
    - change (hasDependencyCycle 2 state (addr 1 1) (lit "=A1") <> OutOfFuel).
      rewrite H5. discriminate. }
  assert (Htrue : answer = true).
  { pose proof (Hall (S (S (slotCount state))) ltac:(lia)) as Ha.
    rewrite Hfuel in Ha by lia. now injection Ha as <-. }
  subst answer.
  split; [vm_compute; reflexivity|]. split; [vm_compute; reflexivity|].
  split; [exact H5|]. split; [exact Hall|].
  now apply Hiff.
Qed.

(** C7.  The text [=SUM(A1000,A1)] blurred into A1 of the grid of [Grid].
    It parses as a sum over A1000 and A1, and written at A1 it makes A1
    depend on itself.  The detector does not return [true] on it: it
    follows the references in order, and the lookup of A1000, in a row that
    the grid does not have, raises before A1 is compared, whatever the
    bound on the depth; the blur handler stops there and leaves the grid as
    it was.  With the two references in the other order the detector
    returns [true]. *)
Theorem hasDependencyCycle_out_of_grid_first :
  let value := lit "=SUM(A1000,A1)" in
  let state' := match newValue gridMatrix (addr 0 1) value with
                | Ret s => s
                | _ => []
                end in
  dependencies (parseCellContents value) = [addr 0 1000; addr 0 1]
  /\ newValue gridMatrix (addr 0 1) value = Ret state'
  /\ slotOf (addr 0 1) = Some (1, 0)%Z
  /\ dependsOn state' (1, 0)%Z (1, 0)%Z
  /\ lookupCell gridMatrix (addr 0 1000) = TypeError
  /\ (forall fuel, hasDependencyCycle (S fuel) gridMatrix (addr 0 1) value = TypeError)
  /\ (forall fuel answer,
         hasDependencyCycle fuel gridMatrix (addr 0 1) value <> Ret answer)
  /\ (forall fuel, onBlur (S fuel) gridMatrix (addr 0 1) value = (gridMatrix, Raised))
  /\ (forall fuel, hasDependencyCycle (S fuel) gridMatrix (addr 0 1)
                     (lit "=SUM(A1,A1000)") = Ret true).
Proof.
  intros value state'.
  assert (Hdeps : dependencies (parseCellContents value) = [addr 0 1000; addr 0 1])
    by (vm_compute; reflexivity).
  assert (Hnew : newValue gridMatrix (addr 0 1) value = Ret state')
    by (vm_compute; reflexivity).
  assert (Hp : slotOf (addr 0 1) = Some (1, 0)%Z) by (vm_compute; reflexivity).
  assert (Hl : lookupCell gridMatrix (addr 0 1000) = TypeError)
    by (vm_compute; reflexivity).
  assert (Hraise : forall fuel,
             hasDependencyCycle (S fuel) gridMatrix (addr 0 1) value = TypeError).
  { intros fuel. unfold hasDependencyCycle. rewrite Hdeps. cbn [some hasLoop].
    replace (eqAddress (addr 0 1) (addr 0 1000)) with false by (vm_compute; reflexivity).
    rewrite Hl. reflexivity. }
  split; [exact Hdeps|]. split; [exact Hnew|]. split; [exact Hp|]. split.
  { apply dependsOn_edge. exists (newCell value), (addr 0 1).
    split; [vm_compute; reflexivity|]. split; [|exact Hp].
    unfold cellDependencies, parsed. cbn [raw newCell]. rewrite Hdeps.
    right. left. reflexivity. }
  split; [exact Hl|]. split; [exact Hraise|]. split.
  { intros [|fuel] answer; [|rewrite Hraise; discriminate].
    unfold hasDependencyCycle. rewrite Hdeps. cbn [some hasLoop bind]. discriminate. }
  split.
  { intros fuel. unfold onBlur. rewrite Hraise. reflexivity. }
  intros fuel. unfold hasDependencyCycle.
  replace (dependencies (parseCellContents (lit "=SUM(A1,A1000)")))
    with [addr 0 1; addr 0 1000] by (vm_compute; reflexivity).
  cbn [some hasLoop].
  replace (eqAddress (addr 0 1) (addr 0 1)) with true by (vm_compute; reflexivity).
  reflexivity.
Qed.

(** ** Totality of the evaluator *)

Lemma In_refAddresses (args : list NumericArgs) (address : Address) :
  In address (refAddresses args) <-> In (NumRef address) args.
Proof.
  unfold refAddresses. rewrite in_flat_map. split.
  - intros (arg & Harg & Hin). apply filter_In in Harg as [Harg _].
    destruct arg as [|a]; [destruct Hin|].
    destruct Hin as [<-|[]]. assumption.
  - intros H. exists (NumRef address). split; [|now left].
    apply filter_In. auto.
Qed.

Lemma evalNumericLoop_total (getValue : Cell -> result DisplayValue) (state : State)
      (m : Monoid) (args : list NumericArgs) :
  (forall address, In (NumRef address) args ->
     exists s, lookupCell state address = Ret s
               /\ forall c, s = Occupied c -> exists v, getValue c = Ret v) ->
  forall res, exists n, evalNumericLoop getValue state args m res = Ret n.
Proof.
  induction args as [|[num|address] args IH]; intros H res; cbn [evalNumericLoop].
  - eauto.
  - apply IH. intros a Ha. apply H. now right.
  - destruct (H address (or_introl eq_refl)) as (s & -> & Hs). cbn [bind].
    assert (Hn : exists n, readNumber getValue s (empty m) = Ret n).
    { destruct s as [| |c]; cbn [readNumber]; eauto.
      destruct (Hs c eq_refl) as [v ->]. cbn [bind]. eauto. }
    destruct Hn as [n ->]. cbn [bind].
    apply IH. intros a Ha. apply H. now right.
Qed.

Lemma evalNumericLoop_stable (f g : Cell -> result DisplayValue) (state : State)
      (m : Monoid) (args : list NumericArgs) :
  (forall c v, f c = Ret v -> g c = Ret v) ->
  forall res n,
    evalNumericLoop f state args m res = Ret n ->
    evalNumericLoop g state args m res = Ret n.
Proof.
  intros Hfg. induction args as [|[num|address] args IH]; intros res n;
    cbn [evalNumericLoop]; auto.
  destruct (lookupCell state address) as [s| |]; cbn [bind]; try discriminate.
  destruct s as [| |c]; cbn [readNumber bind]; auto.
  destruct (f c) as [v| |] eqn:Hf; cbn [bind]; try discriminate.
  rewrite (Hfg c v Hf). cbn [bind]. apply IH.
Qed.

(** A larger bound on the depth does not change a value. *)
Lemma value_stable (state : State) (fuel : nat) :
  forall fuel' cell v,
    (fuel <= fuel')%nat ->
    value fuel state cell = Ret v -> value fuel' state cell = Ret v.
Proof.
  induction fuel as [|fuel IH]; intros fuel' cell v Hle H; [discriminate|].
  destruct fuel' as [|fuel']; [lia|].
  cbn [value] in *.
  assert (Hstep : forall c w, value fuel state c = Ret w -> value fuel' state c = Ret w).
  { intros c w. apply IH. lia. }
  destruct (parsed cell) as [| |address|args|args]; try assumption.
  - destruct (lookupCell state address) as [[| |c]| |]; cbn [bind] in *;
      try assumption.
    destruct (value fuel state c) as [w| |] eqn:Hw; cbn [bind] in H; try discriminate.
    now rewrite (Hstep c w Hw).
  - unfold evalNumericFunction in *.
    destruct (evalNumericLoop (value fuel state) state args sum (empty sum))
      as [n| |] eqn:Hn; cbn [bind] in H; try discriminate.
    now rewrite (evalNumericLoop_stable _ _ _ _ _ Hstep _ _ Hn).
  - unfold evalNumericFunction in *.
    destruct (evalNumericLoop (value fuel state) state args product (empty product))
      as [n| |] eqn:Hn; cbn [bind] in H; try discriminate.
    now rewrite (evalNumericLoop_stable _ _ _ _ _ Hstep _ _ Hn).
Qed.

Lemma lookupCell_returns (state : State) (address : Address) :
  lookupCell state address <> TypeError -> exists s, lookupCell state address = Ret s.
Proof.
  intros H. destruct (lookupCell state address) as [s| |] eqn:E; [eauto|now elim H|].
  now elim (lookupCell_never_out_of_fuel state address).
Qed.

Lemma value_fuel (state : State) :
  acyclic state -> refsInGrid state ->
  forall fuel path p cell,
    cellAt state p = Some cell ->
    chain state (p :: path) ->
    Forall (fun q => exists c, cellAt state q = Some c) (p :: path) ->
    (slotCount state < fuel + List.length (p :: path))%nat ->
    exists v, value fuel state cell = Ret v.
Proof.
  intros Hac Hrefs. induction fuel as [|fuel IH]; intros path p cell Hcell Hc Hall Hlen.
  - pose proof (chain_length _ _ Hac Hc Hall). lia.
  - assert (Hdep : forall dep,
               In dep (cellDependencies cell) ->
               exists s, lookupCell state dep = Ret s
                         /\ forall c, s = Occupied c -> exists v, value fuel state c = Ret v).
    { intros dep Hin.
      destruct (lookupCell_returns state dep (Hrefs p cell dep Hcell Hin)) as [s Hs].
      exists s. split; [assumption|]. intros c ->.
      apply lookupCell_occupied in Hs as (q & Hq & Hcq).
      apply IH with (path := p :: path) (p := q); try assumption.
      - constructor; [|assumption]. exists cell, dep. auto.
      - constructor; [eauto|assumption].
      - cbn [List.length] in *. lia. }
    unfold cellDependencies, dependencies in Hdep.
    cbn [value]. destruct (parsed cell) as [| |address|args|args]; eauto.
    + destruct (Hdep address (or_introl eq_refl)) as (s & -> & Hs). cbn [bind].
      destruct s as [| |c]; eauto.
      destruct (Hs c eq_refl) as [v ->]. cbn [bind]. eauto.
    + destruct (evalNumericLoop_total (value fuel state) state sum args) with (res := empty sum)
        as [n Hn].
      { intros a Ha. apply Hdep. now apply In_refAddresses. }
      unfold evalNumericFunction. rewrite Hn. cbn [bind]. eauto.
    + destruct (evalNumericLoop_total (value fuel state) state product args)
        with (res := empty product) as [n Hn].
      { intros a Ha. apply Hdep. now apply In_refAddresses. }
      unfold evalNumericFunction. rewrite Hn. cbn [bind]. eauto.
Qed.

(** The parser returns one of the five shapes on every text.  In a grid
    that the program has gone through, every formula names rows of the grid
    only, and the value of every cell of the grid is a text or a number: a
    recursion depth of one more than the number of grid positions is never
    exceeded and any larger bound gives the same value. *)
Theorem value_total (cols rows : nat) (state : State) (address : Address) (cell : Cell) :
  reachable cols rows state ->
  lookupCell state address = Ret (Occupied cell) ->
  (forall text,
      parseCellContents text = Const \/
      parseCellContents text = Invalid \/
      (exists a, parseCellContents text = Ref a) \/
      (exists args, parseCellContents text = Sum args /\ args <> []) \/
      (exists args, parseCellContents text = Product args /\ args <> []))
  /\ (forall dep, In dep (cellDependencies cell) -> lookupCell state dep <> TypeError)
  /\ exists v, forall fuel, (slotCount state < fuel)%nat -> value fuel state cell = Ret v.
Proof.
  intros Hreach Hlook.
  destruct (reachable_sound _ _ _ Hreach) as [Hrefs Hac].
  apply lookupCell_occupied in Hlook as (p & Hp & Hcell).
  split; [exact parseCellContents_shape|]. split.
  - intros dep Hin. exact (Hrefs p cell dep Hcell Hin).
  - destruct (value_fuel state Hac Hrefs (S (slotCount state)) [] p cell Hcell)
      as [v Hv].
    + constructor.
    + constructor; [eauto|constructor].
    + cbn [List.length]. lia.
    + exists v. intros fuel Hlt.
      apply value_stable with (fuel := S (slotCount state)); [lia|assumption].
Qed.

Lemma value_total_witness :
  let state := fst (onBlur 1 (fst (onBlur 1 gridMatrix (addr 0 1) (lit "=SUM(B1,2)")))
                          (addr 1 1) (lit "40")) in
  reachable (List.length alphabet) 1000 state
  /\ lookupCell state (addr 0 1) = Ret (Occupied (newCell (lit "=SUM(B1,2)")))
  /\ value 3 state (newCell (lit "=SUM(B1,2)")) = Ret (Num (ofZ 42))
  /\ exists v, forall fuel, (slotCount state < fuel)%nat ->
                            value fuel state (newCell (lit "=SUM(B1,2)")) = Ret v.
Proof.
  intros state.
  assert (H1 : reachable (List.length alphabet) 1000 state)
    by (do 2 apply reachable_edit; apply reachable_init).
  assert (H2 : lookupCell state (addr 0 1) = Ret (Occupied (newCell (lit "=SUM(B1,2)"))))
    by (vm_compute; reflexivity).
  split; [exact H1|]. split; [exact H2|]. split; [vm_compute; reflexivity|].
  exact (proj2 (proj2 (value_total (List.length alphabet) 1000 state (addr 0 1)
                         (newCell (lit "=SUM(B1,2)")) H1 H2))).
Defined.


(** * Further properties *)

(** ** Addresses, lookups and writes *)

Lemma arrayGet_eqb {A : Type} (l : list A) (a b : number) :
  (a =? b)%float = true -> arrayGet l a = arrayGet l b.
Proof. intros H. unfold arrayGet. now rewrite (toIndex_eqb _ _ H). Qed.

(** Addresses that [eqAddress] holds equal are the same address for the
    grid: [lookupCell], [insertCell] and [newValue] do with one what they do
    with the other, also where the coordinates differ as numbers ([0] and
    [-0]). *)
Theorem eqAddress_same_slot (state : State) (a b : Address) :
  eqAddress a b = true ->
  lookupCell state a = lookupCell state b
  /\ (forall cell, insertCell state a cell = insertCell state b cell)
  /\ (forall value, newValue state a value = newValue state b value).
Proof.
  intros H. unfold eqAddress in H. apply andb_true_iff in H as [Hx Hy].
  assert (Hl : lookupCell state a = lookupCell state b).
  { unfold lookupCell. rewrite (arrayGet_eqb state _ _ Hy).
    destruct (arrayGet state (y b)); [|reflexivity].
    now rewrite (arrayGet_eqb l _ _ Hx). }
  assert (Hi : forall cell, insertCell state a cell = insertCell state b cell).
  { intros cell. unfold insertCell.
    now rewrite (arrayGet_eqb state _ _ Hy), (toIndex_eqb _ _ Hy), (toIndex_eqb _ _ Hx). }
  split; [exact Hl|]. split; [exact Hi|].
  intros value. unfold newValue. rewrite Hl.
  destruct (lookupCell state b) as [[| |c]| |]; cbn [bind]; auto.
Qed.

Lemma eqAddress_same_slot_witness :
  let a := {| x := neg_zero; y := one |} in
  a <> addr 0 1
  /\ eqAddress a (addr 0 1) = true
  /\ lookupCell gridMatrix a = lookupCell gridMatrix (addr 0 1)
  /\ newValue gridMatrix a (lit "7") = newValue gridMatrix (addr 0 1) (lit "7").
Proof.
  intros a.
  assert (H : eqAddress a (addr 0 1) = true) by (vm_compute; reflexivity).
  split.
  - intros E. apply (f_equal x) in E. cbn [x a addr] in E.
    apply (f_equal (fun n => (one / n)%float)) in E. vm_compute in E. discriminate E.
  - split; [exact H|].
    destruct (eqAddress_same_slot gridMatrix a (addr 0 1) H) as (Hl & _ & Hn).
    split; [exact Hl|exact (Hn (lit "7"))].
Defined.

Ltac zbounds :=
  repeat match goal with
         | H : (_ && _)%bool = _ |- _ =>
             rewrite ?andb_true_iff, ?andb_false_iff, ?Z.leb_le, ?Z.ltb_lt,
               ?Z.leb_gt, ?Z.ltb_ge in H
         end;
  lia.

Lemma element_setElement_any (s : slot) :
  forall j row j',
    element (setElement row j s) j'
    = if (j' =? Z.of_nat j)%Z then Some s
      else match element row j' with
           | Some v => Some v
           | None => if ((0 <=? j') && (j' <? Z.of_nat j))%Z then Some Undefined else None
           end.
Proof.
  induction j as [|j IH]; intros row j'.
  - change (Z.of_nat 0) with 0%Z.
    destruct row as [|c row]; cbn [setElement element];
      destruct (Z.eqb_spec j' 0) as [->|Hj']; try reflexivity.
    + destruct ((0 <=? j') && (j' <? 0))%Z eqn:E; [zbounds|reflexivity].
    + destruct (element row (j' - 1)); [reflexivity|].
      destruct ((0 <=? j') && (j' <? 0))%Z eqn:E; [zbounds|reflexivity].
  - destruct row as [|c row]; cbn [setElement element];
      destruct (Z.eqb_spec j' 0) as [->|Hj'].
    + destruct (Z.eqb_spec 0 (Z.of_nat (S j))); [lia|reflexivity].
    + rewrite IH. cbn [element].
      destruct (Z.eqb_spec (j' - 1) (Z.of_nat j)), (Z.eqb_spec j' (Z.of_nat (S j)));
        try lia; try reflexivity.
      destruct ((0 <=? j' - 1) && (j' - 1 <? Z.of_nat j))%Z eqn:E1,
               ((0 <=? j') && (j' <? Z.of_nat (S j)))%Z eqn:E2;
        try reflexivity; zbounds.
    + destruct (Z.eqb_spec 0 (Z.of_nat (S j))); [lia|reflexivity].
    + rewrite IH.
      destruct (Z.eqb_spec (j' - 1) (Z.of_nat j)), (Z.eqb_spec j' (Z.of_nat (S j)));
        try lia; try reflexivity.
      destruct (element row (j' - 1)); [reflexivity|].
      destruct ((0 <=? j' - 1) && (j' - 1 <? Z.of_nat j))%Z eqn:E1,
               ((0 <=? j') && (j' <? Z.of_nat (S j)))%Z eqn:E2;
        try reflexivity; zbounds.
Qed.

Definition namesSlot (b : Address) (p : position) : bool :=
  match slotOf b with
  | Some q => if position_eq_dec q p then true else false
  | None => false
  end.

Lemma namesSlot_true (b : Address) (p : position) :
  namesSlot b p = true <-> slotOf b = Some p.
Proof.
  unfold namesSlot. destruct (slotOf b) as [q|]; [|split; discriminate].
  destruct (position_eq_dec q p) as [->|Hne]; split; congruence.
Qed.

(** A lookup in a grid whose slot at row [i], column [j] has been written. *)
Lemma lookupCell_written (state : State) (i j : Z) (row : list slot) (s : slot)
      (b : Address) :
  (0 <= j)%Z ->
  element state i = Some row ->
  lookupCell (updateRow state i (fun row => setElement row (Z.to_nat j) s)) b
  = if namesSlot b (i, j) then Ret s else lookupCell state b.
Proof.
  intros Hj Hrow.
  destruct (namesSlot b (i, j)) eqn:Hn.
  - apply namesSlot_true in Hn. unfold slotOf in Hn. unfold lookupCell, arrayGet.
    destruct (toIndex (y b)) as [i'|]; [|discriminate].
    destruct (toIndex (x b)) as [j'|]; [|discriminate].
    inversion Hn; subst i' j'.
    rewrite element_updateRow, Z.eqb_refl, Hrow. cbn [option_map].
    rewrite element_setElement_any.
    replace (Z.of_nat (Z.to_nat j)) with j by lia.
    now rewrite Z.eqb_refl.
  - assert (Hne : slotOf b <> Some (i, j)).
    { intros E. apply namesSlot_true in E. congruence. }
    unfold slotOf in Hne. unfold lookupCell, arrayGet.
    destruct (toIndex (y b)) as [i'|]; [|reflexivity].
    rewrite element_updateRow.
    destruct (Z.eqb_spec i' i) as [->|Hi]; [|reflexivity].
    rewrite Hrow. cbn [option_map].
    destruct (toIndex (x b)) as [j'|]; [|reflexivity].
    rewrite element_setElement_any.
    replace (Z.of_nat (Z.to_nat j)) with j by lia.
    destruct (Z.eqb_spec j' j) as [->|Hj']; [now elim Hne|].
    destruct (element row j'); [reflexivity|].
    now destruct ((0 <=? j') && (j' <? j))%Z.
Qed.

(** [insertCell] against [lookupCell].  Where the row of the address is a
    row of the grid and its column an array index, the write succeeds, in
    range or past the end of the row (the row is extended); a lookup at the
    address then returns the cell, and a lookup at any address that
    [eqAddress] tells apart from it returns what it returned before. *)
Theorem insertCell_lookup (state : State) (a : Address) (cell : Cell) (j : Z) :
  toIndex (x a) = Some j ->
  lookupCell state a <> TypeError ->
  exists state',
    insertCell state a cell = Ret state'
    /\ lookupCell state' a = Ret (Occupied cell)
    /\ forall b, eqAddress a b = false -> lookupCell state' b = lookupCell state b.
Proof.
  intros Hx Hl.
  assert (Hrow : exists i row, toIndex (y a) = Some i /\ element state i = Some row).
  { unfold lookupCell, arrayGet in Hl.
    destruct (toIndex (y a)) as [i|]; [|now elim Hl].
    destruct (element state i) as [row|] eqn:E; [eauto|now elim Hl]. }
  destruct Hrow as (i & row & Hy & Hrow).
  pose proof (toIndex_nonneg _ _ Hx) as Hj.
  assert (Hslot : slotOf a = Some (i, j)) by (unfold slotOf; now rewrite Hy, Hx).
  eexists. split.
  - unfold insertCell, arrayGet. rewrite Hy, Hrow, Hx. reflexivity.
  - split.
    + rewrite (lookupCell_written state i j row _ a Hj Hrow).
      now rewrite (proj2 (namesSlot_true a _) Hslot).
    + intros b Hb.
      rewrite (lookupCell_written state i j row _ b Hj Hrow).
      destruct (namesSlot b _) eqn:E; [|reflexivity].
      apply namesSlot_true in E.
      now rewrite (slotOf_eqAddress _ _ _ Hslot E) in Hb.
Qed.

Lemma insertCell_lookup_witness :
  let state := [[Null; Null]; [Null]] in
  let a := addr 3 1 in
  toIndex (x a) = Some 3%Z
  /\ lookupCell state a = Ret Undefined
  /\ insertCell state a (newCell (lit "x"))
     = Ret [[Null; Null]; [Null; Undefined; Undefined; Occupied (newCell (lit "x"))]]
  /\ exists state',
       insertCell state a (newCell (lit "x")) = Ret state'
       /\ lookupCell state' a = Ret (Occupied (newCell (lit "x")))
       /\ forall b, eqAddress a b = false -> lookupCell state' b = lookupCell state b.
Proof.
  intros state a.
  assert (H1 : toIndex (x a) = Some 3%Z) by (vm_compute; reflexivity).
  assert (H2 : lookupCell state a = Ret Undefined) by (vm_compute; reflexivity).
  split; [exact H1|]. split; [exact H2|]. split; [vm_compute; reflexivity|].
  apply (insertCell_lookup state a (newCell (lit "x")) 3 H1).
  rewrite H2. discriminate.
Defined.

Lemma newValue_raises (state : State) (a : Address) (value : jsstring) :
  newValue state a value = TypeError
  <-> lookupCell state a = TypeError \/ lookupCell state a = Ret Undefined.
Proof.
  unfold newValue.
  destruct (lookupCell state a) as [[| |c]| |] eqn:Hl; cbn [bind].
  - split; [auto|reflexivity].
  - split; [|intros [H|H]; discriminate H].
    intros H. exfalso. revert H. unfold insertCell.
    unfold lookupCell in Hl.
    destruct (arrayGet state (y a)) eqn:E; [|discriminate].
    unfold arrayGet in E. destruct (toIndex (y a)); discriminate.
  - split; [|intros [H|H]; discriminate H].
    intros H. exfalso. revert H. unfold insertCell.
    unfold lookupCell in Hl.
    destruct (arrayGet state (y a)) eqn:E; [|discriminate].
    unfold arrayGet in E. destruct (toIndex (y a)); discriminate.
  - split; [auto|reflexivity].
  - now elim (lookupCell_never_out_of_fuel state a).
Qed.

Lemma newValue_written (state state' : State) (a : Address) (value : jsstring) :
  newValue state a value = Ret state' ->
  lookupCell state' a = Ret (Occupied (newCell value))
  /\ (forall b, eqAddress a b = false -> lookupCell state' b = lookupCell state b)
  /\ List.length state' = List.length state.
Proof.
  intros H.
  apply newValue_result in H as (r & c & row & s & Hy & Hx & Hr & Hc & ->).
  pose proof (toIndex_nonneg _ _ Hx) as Hj.
  assert (Hslot : slotOf a = Some (r, c)) by (unfold slotOf; now rewrite Hy, Hx).
  split; [|split].
  - rewrite (lookupCell_written state r c row _ a Hj Hr).
    now rewrite (proj2 (namesSlot_true a _) Hslot).
  - intros b Hb.
    rewrite (lookupCell_written state r c row _ b Hj Hr).
    destruct (namesSlot b _) eqn:E; [|reflexivity].
    apply namesSlot_true in E.
    now rewrite (slotOf_eqAddress _ _ _ Hslot E) in Hb.
  - apply length_updateRow.
Qed.

(** [newValue] against [lookupCell].  The call raises exactly when the
    lookup at the address raises or finds [undefined]; otherwise the grid
    it leaves holds, at the address, a cell with the new raw text, and at
    every address that [eqAddress] tells apart from it what it held before;
    the number of rows is unchanged. *)
Theorem newValue_lookup (state : State) (a : Address) (value : jsstring) :
  (newValue state a value = TypeError
   <-> lookupCell state a = TypeError \/ lookupCell state a = Ret Undefined)
  /\ forall state',
       newValue state a value = Ret state' ->
       lookupCell state' a = Ret (Occupied (newCell value))
       /\ (forall b, eqAddress a b = false -> lookupCell state' b = lookupCell state b)
       /\ List.length state' = List.length state.
Proof.
  split; [apply newValue_raises|]. intros state'. apply newValue_written.
Qed.

(** ** The edit handler *)

(** The blur handler keeps the committed formulas free of cycles and
    inside the grid: whatever text is proposed for whatever address, if the
    grid had no dependency cycle before the call it has none after it, and
    if every formula named rows of the grid before, every formula does
    after. *)
Theorem onBlur_keeps_acyclic (fuel : nat) (matrix : State) (address : Address)
        (edit : jsstring) :
  acyclic matrix -> refsInGrid matrix ->
  acyclic (fst (onBlur fuel matrix address edit))
  /\ refsInGrid (fst (onBlur fuel matrix address edit)).
Proof.
  intros Hac Hrefs.
  destruct (onBlur_cases fuel matrix address edit) as [->|[Hans Hnew]]; [now split|].
  split.
  - exact (commit_acyclic _ _ _ _ _ Hac Hans Hnew).
  - exact (commit_refsInGrid _ _ _ _ _ Hrefs Hans Hnew).
Qed.

Lemma onBlur_keeps_acyclic_witness :
  let matrix := fst (onBlur 1 gridMatrix (addr 0 1) (lit "=SUM(B1,C1)")) in
  lookupCell matrix (addr 0 1) = Ret (Occupied (newCell (lit "=SUM(B1,C1)")))
  /\ acyclic gridMatrix /\ refsInGrid gridMatrix
  /\ acyclic matrix /\ refsInGrid matrix.
Proof.
  intros matrix.
  split; [vm_compute; reflexivity|].
  split; [apply makeMatrix_acyclic|]. split; [apply makeMatrix_refsInGrid|].
  exact (onBlur_keeps_acyclic 1 gridMatrix (addr 0 1) (lit "=SUM(B1,C1)")
           (makeMatrix_acyclic _ _) (makeMatrix_refsInGrid _ _)).
Defined.

Lemma newValue_in_bounds (cols rows : nat) (state : State) (address : Address)
      (value : jsstring) :
  fullGrid cols rows state -> inBounds cols rows address ->
  exists state', newValue state address value = Ret state'.
Proof.
  intros Hfull Hin.
  destruct (fullGrid_lookup _ _ _ _ Hfull Hin) as [cell Hl].
  unfold newValue. rewrite Hl. cbn [bind].
  unfold insertCell. unfold lookupCell in Hl.
  destruct (arrayGet state (y address)) eqn:E; [|discriminate].
  unfold arrayGet in E. destruct (toIndex (y address)); [eauto|discriminate].
Qed.

(** The blur handler rejects exactly the edits that would close a cycle.
    In a grid that the program has gone through, for a cell of the grid and
    a text whose references name rows of the grid, the handler, given the
    recursion depth of the number of positions plus one, either rejects the
    edit, and then the grid with the text committed would have the cell
    depend on itself, or commits it, and then the grid it leaves is the one
    [newValue] builds and no cell of it depends on itself. *)
Theorem onBlur_decides (cols rows fuel : nat) (matrix : State) (address : Address)
        (edit : jsstring) :
  reachable cols rows matrix ->
  inBounds cols rows address ->
  (forall dep, In dep (dependencies (parseCellContents edit)) ->
               lookupCell matrix dep <> TypeError) ->
  (slotCount matrix < fuel)%nat ->
  exists matrix' p,
    newValue matrix address edit = Ret matrix' /\ slotOf address = Some p
    /\ ((onBlur fuel matrix address edit = (matrix, CycleRejected)
         /\ dependsOn matrix' p p)
        \/ (onBlur fuel matrix address edit = (matrix', Committed)
            /\ acyclic matrix')).
Proof.
  intros Hreach Hin Hdeps Hfuel.
  destruct (reachable_sound _ _ _ Hreach) as [Hrefs Hac].
  destruct (newValue_in_bounds _ _ _ _ edit (reachable_fullGrid _ _ _ Hreach) Hin)
    as [matrix' Hnew].
  destruct (newValue_cellAt _ _ _ _ Hnew) as (p & Hp & Hcell & Hsame & _).
  destruct (hasDependencyCycle_answers _ _ _ address edit Hreach Hdeps) as [answer Hans].
  specialize (Hans fuel Hfuel).
  exists matrix', p. split; [assumption|]. split; [assumption|].
  unfold onBlur. rewrite Hans, Hnew. destruct answer.
  - left. split; [reflexivity|].
    unfold hasDependencyCycle in Hans.
    apply some_true in Hans as (dep & Hdin & Hdep).
    apply (hasLoop_true matrix address p Hp) in Hdep as (q & Hq & Hlead).
    assert (Hedge : edge matrix' p q) by (exists (newCell edit), dep; auto).
    apply leads_transfer with (state' := matrix') in Hlead; [|assumption].
    destruct (leads_dependsOn _ _ _ Hlead) as [->|Hqp]; [now constructor|].
    now apply dependsOn_step with (q := q).
  - right. split; [reflexivity|].
    exact (commit_acyclic _ _ _ _ _ Hac Hans Hnew).
Qed.

Lemma onBlur_decides_witness :
  let matrix := fst (onBlur 1 gridMatrix (addr 0 1) (lit "=B1")) in
  reachable (List.length alphabet) 1000 matrix
  /\ inBounds (List.length alphabet) 1000 (addr 1 1)
  /\ exists matrix' p,
       newValue matrix (addr 1 1) (lit "=A1") = Ret matrix'
       /\ slotOf (addr 1 1) = Some p
       /\ ((onBlur (S (slotCount matrix)) matrix (addr 1 1) (lit "=A1")
            = (matrix, CycleRejected)
            /\ dependsOn matrix' p p)
           \/ (onBlur (S (slotCount matrix)) matrix (addr 1 1) (lit "=A1")
               = (matrix', Committed)
               /\ acyclic matrix')).
Proof.
  intros matrix.
  assert (H1 : reachable (List.length alphabet) 1000 matrix)
    by (apply reachable_edit, reachable_init).
  assert (H2 : inBounds (List.length alphabet) 1000 (addr 1 1)).
  { exists 1%Z, 1%Z. split; [vm_compute; reflexivity|]. split; reflexivity. }
  split; [exact H1|]. split; [exact H2|].
  apply (onBlur_decides (List.length alphabet) 1000 (S (slotCount matrix)) matrix
           (addr 1 1) (lit "=A1") H1 H2); [|lia].
  intros dep Hdep.
  replace (dependencies (parseCellContents (lit "=A1"))) with [addr 0 1] in Hdep
    by (vm_compute; reflexivity).
  destruct Hdep as [<-|[]]. 
  replace (lookupCell matrix (addr 0 1))
    with (Ret (Occupied (newCell (lit "=B1")))) by (vm_compute; reflexivity).
  discriminate.
Defined.

Lemma parseCellContents_literal (t : jsstring) :
  charAt (trim t) 0 <> Some 61%N -> parseCellContents t = Const.
Proof.
  intros H. unfold parseCellContents.
  destruct (charAt (trim t) 0) as [c0|]; [|reflexivity].
  destruct (N.eqb_spec c0 61) as [->|_]; [now elim H|reflexivity].
Qed.

(** A plain text is always accepted and shown as typed.  Where the lookup
    at the address finds a cell or [null], a text whose trimmed form does
    not start with [=] is committed by the blur handler whatever the rest of
    the grid holds; the cell then shows the text, untrimmed, and the other
    addresses hold what they held. *)
Theorem onBlur_literal (fuel : nat) (matrix : State) (address : Address)
        (t : jsstring) :
  lookupCell matrix address <> TypeError ->
  lookupCell matrix address <> Ret Undefined ->
  charAt (trim t) 0 <> Some 61%N ->
  exists matrix',
    onBlur fuel matrix address t = (matrix', Committed)
    /\ (forall fuel', readValue (S fuel') matrix' address = Ret (Text t))
    /\ forall b, eqAddress address b = false ->
                 lookupCell matrix' b = lookupCell matrix b.
Proof.
  intros Hl Hu Ht.
  pose proof (parseCellContents_literal t Ht) as Hp.
  assert (Hnew : exists matrix', newValue matrix address t = Ret matrix').
  { destruct (newValue matrix address t) as [m| |] eqn:E; [eauto| |].
    - apply newValue_raises in E. tauto.
    - now elim (newValue_never_out_of_fuel matrix address t). }
  destruct Hnew as [matrix' Hnew]. exists matrix'.
  destruct (newValue_written _ _ _ _ Hnew) as (Hcell & Hframe & _).
  split; [|split; [|exact Hframe]].
  - unfold onBlur, hasDependencyCycle. rewrite Hp. cbn [dependencies some].
    now rewrite Hnew.
  - intros fuel'. unfold readValue. rewrite Hcell. cbn [bind value].
    unfold parsed. cbn [raw newCell]. now rewrite Hp.
Qed.

Lemma onBlur_literal_witness :
  let matrix := fst (onBlur 1 gridMatrix (addr 0 1) (lit "=B1")) in
  lookupCell matrix (addr 0 1) = Ret (Occupied (newCell (lit "=B1")))
  /\ exists matrix',
       onBlur 0 matrix (addr 0 1) (lit " 3 = 3 ") = (matrix', Committed)
       /\ (forall fuel', readValue (S fuel') matrix' (addr 0 1) = Ret (Text (lit " 3 = 3 ")))
       /\ forall b, eqAddress (addr 0 1) b = false ->
                    lookupCell matrix' b = lookupCell matrix b.
Proof.
  intros matrix.
  assert (H : lookupCell matrix (addr 0 1) = Ret (Occupied (newCell (lit "=B1"))))
    by (vm_compute; reflexivity).
  split; [exact H|].
  apply (onBlur_literal 0 matrix (addr 0 1) (lit " 3 = 3 "));
    try (rewrite H; discriminate).
  vm_compute. discriminate.
Defined.

Lemma setElement_same (s : slot) :
  forall (row : list slot) (j : nat),
    element row (Z.of_nat j) = Some s -> setElement row j s = row.
Proof.
  induction row as [|c row IH]; intros j H; [discriminate|].
  destruct j as [|j]; cbn [setElement].
  - cbn in H. now injection H as ->.
  - cbn [element] in H.
    destruct (Z.eqb_spec (Z.of_nat (S j)) 0) as [E|_]; [lia|].
    replace (Z.of_nat (S j) - 1)%Z with (Z.of_nat j) in H by lia.
    now rewrite (IH j H).
Qed.

Lemma updateRow_same (f : list slot -> list slot) :
  forall (state : State) (i : Z) (row : list slot),
    element state i = Some row -> f row = row -> updateRow state i f = state.
Proof.
  induction state as [|r state IH]; intros i row H Hf; [reflexivity|].
  cbn [updateRow element] in *.
  destruct (i =? 0)%Z.
  - injection H as ->. now rewrite Hf.
  - now rewrite (IH _ _ H Hf).
Qed.

(** A focus and a blur with the text untouched change nothing.  In a grid
    that the program has gone through, for every cell of the grid, the blur
    handler accepts the raw text that [startEdit] took from the cell (no
    cycle alert, no exception) and the grid it leaves is the grid as it
    was. *)
Theorem focusThenBlur_unchanged (cols rows fuel : nat) (matrix : State)
        (address : Address) :
  reachable cols rows matrix ->
  inBounds cols rows address ->
  (slotCount matrix < fuel)%nat ->
  focusThenBlur fuel matrix address = Ret (matrix, Committed).
Proof.
  intros Hreach Hin Hfuel.
  destruct (reachable_sound _ _ _ Hreach) as [Hrefs Hac].
  destruct (fullGrid_lookup _ _ _ _ (reachable_fullGrid _ _ _ Hreach) Hin) as [cell Hl].
  unfold focusThenBlur. rewrite Hl. cbn [bind startEdit].
  destruct (proj1 (lookupCell_occupied _ _ _) Hl) as (p & Hp & Hcell).
  assert (Hdeps : forall dep, In dep (dependencies (parseCellContents (raw cell))) ->
                              lookupCell matrix dep <> TypeError).
  { intros dep Hdep. exact (Hrefs p cell dep Hcell Hdep). }
  destruct (hasDependencyCycle_answers _ _ _ address (raw cell) Hreach Hdeps)
    as [answer Hans].
  specialize (Hans fuel Hfuel).
  assert (answer = false).
  { destruct answer; [exfalso|reflexivity].
    unfold hasDependencyCycle in Hans.
    apply some_true in Hans as (dep & Hdin & Hdep).
    apply (hasLoop_true matrix address p Hp) in Hdep as (q & Hq & Hlead).
    apply (Hac p).
    assert (Hedge : edge matrix p q) by (exists cell, dep; auto).
    destruct (leads_dependsOn _ _ _ Hlead) as [->|Hqp]; [now constructor|].
    now apply dependsOn_step with (q := q). }
  subst answer.
  assert (Hnew : newValue matrix address (raw cell) = Ret matrix).
  { destruct (newValue_in_bounds _ _ _ _ (raw cell) (reachable_fullGrid _ _ _ Hreach) Hin)
      as [matrix' Hnew].
    rewrite Hnew. f_equal.
    apply newValue_result in Hnew as (r & c & row & s & Hy & Hx & Hr & Hc & ->).
    pose proof (toIndex_nonneg _ _ Hx) as Hj.
    assert (Hs : s = Occupied cell).
    { unfold lookupCell, arrayGet in Hl. rewrite Hy, Hr, Hx, Hc in Hl.
      now injection Hl as ->. }
    subst s. apply updateRow_same with (row := row); [assumption|].
    replace (newCell (raw cell)) with cell by (now destruct cell).
    apply setElement_same. now replace (Z.of_nat (Z.to_nat c)) with c by lia. }
  unfold onBlur. now rewrite Hans, Hnew.
Qed.

Lemma focusThenBlur_unchanged_witness :
  let matrix := fst (onBlur 1 gridMatrix (addr 0 1) (lit "=B1")) in
  reachable (List.length alphabet) 1000 matrix
  /\ inBounds (List.length alphabet) 1000 (addr 0 1)
  /\ startEdit (Occupied (newCell (lit "=B1"))) = lit "=B1"
  /\ focusThenBlur (S (slotCount matrix)) matrix (addr 0 1) = Ret (matrix, Committed).
Proof.
  intros matrix.
  assert (H1 : reachable (List.length alphabet) 1000 matrix)
    by (apply reachable_edit, reachable_init).
  assert (H2 : inBounds (List.length alphabet) 1000 (addr 0 1)).
  { exists 1%Z, 0%Z. split; [vm_compute; reflexivity|]. split; reflexivity. }
  split; [exact H1|]. split; [exact H2|]. split; [reflexivity|].
  apply (focusThenBlur_unchanged (List.length alphabet) 1000 (S (slotCount matrix))
           matrix (addr 0 1) H1 H2). lia.
Defined.

(** ** Evaluation *)

Lemma evalNumericLoop_agree (f g : Cell -> result DisplayValue) (s1 s2 : State)
      (m : Monoid) (args : list NumericArgs) :
  (forall address, In (NumRef address) args ->
     lookupCell s1 address = lookupCell s2 address
     /\ forall c, lookupCell s2 address = Ret (Occupied c) -> f c = g c) ->
  forall res, evalNumericLoop f s1 args m res = evalNumericLoop g s2 args m res.
Proof.
  induction args as [|[num|address] args IH]; intros H res; cbn [evalNumericLoop].
  - reflexivity.
  - apply IH. intros a Ha. apply H. now right.
  - destruct (H address (or_introl eq_refl)) as [Hl Hv]. rewrite Hl.
    destruct (lookupCell s2 address) as [[| |c]| |]; cbn [bind readNumber];
      try reflexivity;
      try (apply IH; intros a Ha; apply H; now right).
    rewrite (Hv c eq_refl). destruct (g c) as [v| |]; cbn [bind]; try reflexivity.
    apply IH. intros a Ha. apply H. now right.
Qed.

(** An edit leaves alone the values that do not read the edited cell.
    When [newValue] writes the cell at position [p], every cell at another
    position that does not depend on [p], directly or through a chain of
    formulas, shows afterwards what it showed before, outcome for outcome
    (a value or the [TypeError] of a reference outside the grid). *)
Theorem value_unaffected (state state' : State) (a b : Address) (text : jsstring)
        (p q : position) (cell : Cell) :
  newValue state a text = Ret state' ->
  slotOf a = Some p ->
  slotOf b = Some q ->
  lookupCell state b = Ret (Occupied cell) ->
  q <> p ->
  ~ dependsOn state q p ->
  forall fuel, readValue fuel state' b = readValue fuel state b.
Proof.
  intros Hnew Hp Hq Hl Hne Hdep fuel.
  assert (Hlook : forall d, slotOf d <> Some p -> lookupCell state' d = lookupCell state d).
  { intros d Hd. destruct (newValue_written _ _ _ _ Hnew) as (_ & Hframe & _).
    apply Hframe. destruct (eqAddress a d) eqn:E; [|reflexivity].
    elim Hd. now rewrite <- (eqAddress_slotOf _ _ E). }
  assert (Hval : forall fuel r c,
             cellAt state r = Some c -> r <> p -> ~ dependsOn state r p ->
             value fuel state' c = value fuel state c).
  { clear fuel. induction fuel as [|fuel IH]; intros r c Hc Hr Hrp; [reflexivity|].
    assert (Hd : forall d, In d (cellDependencies c) ->
                 lookupCell state' d = lookupCell state d
                 /\ forall c', lookupCell state d = Ret (Occupied c') ->
                               value fuel state' c' = value fuel state c').
    { intros d Hin.
      assert (Hds : slotOf d <> Some p).
      { intros E. apply Hrp. constructor. exists c, d. auto. }
      split; [now apply Hlook|].
      intros c' Hc'. apply lookupCell_occupied in Hc' as (r' & Hr' & Hcr').
      apply IH with (r := r'); [assumption|congruence|].
      intros Hr'p. apply Hrp. apply dependsOn_step with (q := r'); [|assumption].
      exists c, d. auto. }
    unfold cellDependencies, dependencies in Hd. cbn [value].
    destruct (parsed c) as [| |address|args|args]; try reflexivity.
    - destruct (Hd address (or_introl eq_refl)) as [Hla Hva]. rewrite Hla.
      destruct (lookupCell state address) as [[| |c']| |]; cbn [bind]; try reflexivity.
      now rewrite (Hva c' eq_refl).
    - unfold evalNumericFunction.
      rewrite (evalNumericLoop_agree (value fuel state') (value fuel state) state' state
                 sum args); [reflexivity|].
      intros address Ha. apply Hd. now apply In_refAddresses.
    - unfold evalNumericFunction.
      rewrite (evalNumericLoop_agree (value fuel state') (value fuel state) state' state
                 product args); [reflexivity|].
      intros address Ha. apply Hd. now apply In_refAddresses. }
  unfold readValue. rewrite (Hlook b) by congruence. rewrite Hl. cbn [bind].
  apply lookupCell_occupied in Hl as (q' & Hq' & Hc).
  assert (q' = q) by congruence. subst q'.
  now apply Hval with (r := q).
Qed.

Lemma value_unaffected_witness :
  let state := fst (onBlur 1 (fst (onBlur 1 gridMatrix (addr 0 1) (lit "=SUM(B1,1)")))
                          (addr 1 1) (lit "41")) in
  let state' := match newValue state (addr 2 1) (lit "=A1") with
                | Ret s => s
                | _ => []
                end in
  newValue state (addr 2 1) (lit "=A1") = Ret state'
  /\ readValue 3 state (addr 0 1) = Ret (Num (ofZ 42))
  /\ forall fuel, readValue fuel state' (addr 0 1) = readValue fuel state (addr 0 1).
Proof.
  intros state state'.
  assert (H1 : newValue state (addr 2 1) (lit "=A1") = Ret state')
    by (vm_compute; reflexivity).
  split; [exact H1|]. split; [vm_compute; reflexivity|].
  assert (H2 : slotOf (addr 2 1) = Some (1, 2)%Z) by (vm_compute; reflexivity).
  assert (H3 : slotOf (addr 0 1) = Some (1, 0)%Z) by (vm_compute; reflexivity).
  assert (H4 : lookupCell state (addr 0 1) = Ret (Occupied (newCell (lit "=SUM(B1,1)"))))
    by (vm_compute; reflexivity).
  assert (H5 : (1, 0)%Z <> (1, 2)%Z) by discriminate.
  refine (value_unaffected state state' (addr 2 1) (addr 0 1) (lit "=A1")
            (1, 2)%Z (1, 0)%Z (newCell (lit "=SUM(B1,1)")) H1 H2 H3 H4 H5 _).
  assert (Hedge : forall r s, edge state r s -> r = (1, 0)%Z /\ s = (1, 1)%Z).
  { intros r s (c & dep & Hc & Hin & Hs).
    destruct (position_eq_dec r (1, 0)%Z) as [->|Hr].
    - split; [reflexivity|].
      assert (c = newCell (lit "=SUM(B1,1)")).
      { assert (E : cellAt state (1, 0)%Z = Some (newCell (lit "=SUM(B1,1)")))
          by (vm_compute; reflexivity).
        congruence. }
      subst c.
      replace (cellDependencies (newCell (lit "=SUM(B1,1)"))) with [addr 1 1] in Hin
        by (vm_compute; reflexivity).
      destruct Hin as [<-|[]]. vm_compute in Hs. congruence.
    - exfalso.
      destruct (position_eq_dec r (1, 1)%Z) as [->|Hr'].
      + assert (E : cellAt state (1, 1)%Z = Some (newCell (lit "41")))
          by (vm_compute; reflexivity).
        rewrite E in Hc. injection Hc as <-. exact Hin.
      + assert (Hfresh : cellAt state r = cellAt gridMatrix r).
        { unfold state.
          destruct (onBlur_cases 1 (fst (onBlur 1 gridMatrix (addr 0 1) (lit "=SUM(B1,1)")))
                      (addr 1 1) (lit "41")) as [->|[_ Hn2]].
          - destruct (onBlur_cases 1 gridMatrix (addr 0 1) (lit "=SUM(B1,1)"))
              as [->|[_ Hn1]]; [reflexivity|].
            destruct (newValue_cellAt _ _ _ _ Hn1) as (p1 & Hp1 & _ & Hs1 & _).
            apply Hs1. vm_compute in Hp1. congruence.
          - destruct (newValue_cellAt _ _ _ _ Hn2) as (p2 & Hp2 & _ & Hs2 & _).
            rewrite Hs2 by (vm_compute in Hp2; congruence).
            destruct (onBlur_cases 1 gridMatrix (addr 0 1) (lit "=SUM(B1,1)"))
              as [->|[_ Hn1]]; [reflexivity|].
            destruct (newValue_cellAt _ _ _ _ Hn1) as (p1 & Hp1 & _ & Hs1 & _).
            apply Hs1. vm_compute in Hp1. congruence. }
        rewrite Hfresh in Hc. apply makeMatrix_cellAt in Hc. subst c. exact Hin. }
  intros H. inversion H as [? ? He|? r ? He Hrest]; subst.
  - apply Hedge in He as [_ E]. discriminate E.
  - apply Hedge in He as [_ ->].
    inversion Hrest as [? ? He'|? r' ? He' _]; subst;
      apply Hedge in He' as [E _]; discriminate E.
Defined.

(** ** The parser on padded and on call-shaped texts *)

Open Scope list_scope.

Lemma trimStart_idem (s : jsstring) : trimStart (trimStart s) = trimStart s.
Proof.
  induction s as [|c s IH]; [reflexivity|]. cbn [trimStart].
  destruct (isWhiteSpace c) eqn:E; [exact IH|]. cbn [trimStart]. now rewrite E.
Qed.

Lemma trimStart_spaces (ws s : jsstring) :
  forallb isWhiteSpace ws = true -> trimStart (ws ++ s) = trimStart s.
Proof.
  induction ws as [|c ws IH]; intros H; [reflexivity|].
  cbn [forallb] in H. apply andb_true_iff in H as [Hc Hws].
  cbn [app trimStart]. rewrite Hc. now apply IH.
Qed.

Lemma trimStart_all_spaces (ws : jsstring) :
  forallb isWhiteSpace ws = true -> trimStart ws = [].
Proof.
  intros H. rewrite <- (app_nil_r ws). now rewrite trimStart_spaces.
Qed.

(** The head of a left-trimmed text is no white space. *)
Lemma trimStart_head_or_nil (s : jsstring) :
  trimStart s = [] \/ exists c t, trimStart s = c :: t /\ isWhiteSpace c = false.
Proof.
  induction s as [|c s IH]; [now left|]. cbn [trimStart].
  destruct (isWhiteSpace c) eqn:E; [exact IH|]. right. eauto.
Qed.

Lemma trimStart_snoc (s : jsstring) (c : codeunit) :
  isWhiteSpace c = false -> trimStart (s ++ [c]) = trimStart s ++ [c].
Proof.
  intros Hc. induction s as [|d s IH]; cbn [app trimStart].
  - now rewrite Hc.
  - destruct (isWhiteSpace d); [exact IH|reflexivity].
Qed.

Lemma trimEnd_cons (c : codeunit) (s : jsstring) :
  isWhiteSpace c = false -> trimEnd (c :: s) = c :: trimEnd s.
Proof.
  intros Hc. unfold trimEnd. cbn [rev].
  rewrite (trimStart_snoc _ _ Hc), rev_app_distr. reflexivity.
Qed.

Lemma trimEnd_idem (s : jsstring) : trimEnd (trimEnd s) = trimEnd s.
Proof. unfold trimEnd. now rewrite rev_involutive, trimStart_idem. Qed.

Lemma trimEnd_spaces (s ws : jsstring) :
  forallb isWhiteSpace ws = true -> trimEnd (s ++ ws) = trimEnd s.
Proof.
  intros H. unfold trimEnd. rewrite rev_app_distr, trimStart_spaces; [reflexivity|].
  apply forallb_forall. intros c Hc. apply in_rev in Hc.
  now apply (proj1 (forallb_forall _ _) H).
Qed.

Lemma trimStart_trimEnd (s : jsstring) :
  trimStart (trimEnd (trimStart s)) = trimEnd (trimStart s).
Proof.
  destruct (trimStart_head_or_nil s) as [->|(c & t & -> & Hc)]; [reflexivity|].
  rewrite (trimEnd_cons _ _ Hc). cbn [trimStart]. now rewrite Hc.
Qed.

Lemma trim_idem (s : jsstring) : trim (trim s) = trim s.
Proof. unfold trim. now rewrite trimStart_trimEnd, trimEnd_idem. Qed.

Lemma trim_padded (ws1 s ws2 : jsstring) :
  forallb isWhiteSpace ws1 = true -> forallb isWhiteSpace ws2 = true ->
  trim (ws1 ++ s ++ ws2) = trim s.
Proof.
  intros H1 H2. unfold trim. rewrite (trimStart_spaces _ _ H1).
  destruct (trimStart_head_or_nil s) as [E|(c & t & E & Hc)].
  - rewrite E.
    assert (Hs : forallb isWhiteSpace s = true).
    { clear -E. induction s as [|c s IH]; [reflexivity|]. cbn [trimStart] in E.
      cbn [forallb]. destruct (isWhiteSpace c); [now apply IH|discriminate]. }
    rewrite trimStart_all_spaces; [reflexivity|].
    rewrite forallb_app. now rewrite Hs, H2.
  - assert (Hsplit : exists pre, s = pre ++ c :: t /\ forallb isWhiteSpace pre = true).
    { clear -E Hc. induction s as [|d s IH]; [discriminate|]. cbn [trimStart] in E.
      destruct (isWhiteSpace d) eqn:Hd.
      - destruct (IH E) as (pre & -> & Hpre). exists (d :: pre). split; [reflexivity|].
        cbn [forallb]. now rewrite Hd.
      - exists []. split; [now rewrite E|reflexivity]. }
    destruct Hsplit as (pre & -> & Hpre).
    rewrite <- app_assoc, (trimStart_spaces _ _ Hpre), (trimStart_spaces _ _ Hpre).
    cbn [app trimStart]. rewrite Hc.
    change (c :: t ++ ws2) with ((c :: t) ++ ws2). now apply trimEnd_spaces.
Qed.

(** White space around a text never changes how it parses: the parse of
    the trimmed text, and of the text with any white space put before and
    after it, is the parse of the text. *)
Theorem parseCellContents_padded (ws1 s ws2 : jsstring) :
  forallb isWhiteSpace ws1 = true -> forallb isWhiteSpace ws2 = true ->
  parseCellContents (ws1 ++ s ++ ws2) = parseCellContents s
  /\ parseCellContents (trim s) = parseCellContents s.
Proof.
  intros H1 H2. unfold parseCellContents.
  now rewrite (trim_padded _ _ _ H1 H2), trim_idem.
Qed.

Lemma parseCellContents_padded_witness :
  forallb isWhiteSpace [9%N; 160%N] = true
  /\ forallb isWhiteSpace (lit "  ") = true
  /\ parseCellContents (lit "=sum( a1 ,2)") = Sum [NumRef (addr 0 1); NumConst two]
  /\ parseCellContents ([9%N; 160%N] ++ lit "=sum( a1 ,2)" ++ lit "  ")
     = parseCellContents (lit "=sum( a1 ,2)")
  /\ parseCellContents (trim (lit "=sum( a1 ,2)")) = parseCellContents (lit "=sum( a1 ,2)").
Proof.
  assert (H1 : forallb isWhiteSpace [9%N; 160%N] = true) by reflexivity.
  assert (H2 : forallb isWhiteSpace (lit "  ") = true) by reflexivity.
  split; [exact H1|]. split; [exact H2|]. split; [vm_compute; reflexivity|].
  exact (parseCellContents_padded [9%N; 160%N] (lit "=sum( a1 ,2)") (lit "  ") H1 H2).
Defined.

Lemma trim_fixed (c d : codeunit) (mid : jsstring) :
  isWhiteSpace c = false -> isWhiteSpace d = false ->
  trim (c :: mid ++ [d]) = c :: mid ++ [d].
Proof.
  intros Hc Hd. unfold trim, trimEnd. cbn [trimStart]. rewrite Hc.
  change (c :: mid ++ [d]) with ((c :: mid) ++ [d]).
  rewrite rev_app_distr. cbn [rev app trimStart]. rewrite Hd.
  change (d :: rev mid ++ [c]) with ([d] ++ rev (c :: mid)).
  rewrite rev_app_distr, rev_involutive. reflexivity.
Qed.

Lemma indexOfFrom_first (c : codeunit) (l1 l2 : jsstring) :
  forallb (fun d => negb (d =? c)%N) l1 = true ->
  forall i, indexOfFrom c (l1 ++ c :: l2) i = (i + Z.of_nat (List.length l1))%Z.
Proof.
  induction l1 as [|d l1 IH]; intros H i; cbn [app indexOfFrom List.length].
  - rewrite N.eqb_refl. cbn. lia.
  - cbn [forallb] in H. apply andb_true_iff in H as [Hd Hl].
    apply negb_true_iff in Hd. rewrite Hd, (IH Hl). lia.
Qed.

Lemma slice_middle (a b c : jsstring) :
  slice (a ++ b ++ c) (Z.of_nat (List.length a))
        (Z.of_nat (List.length a + List.length b)) = b.
Proof.
  unfold slice, relIndex. rewrite !length_app.
  destruct (Z.ltb_spec (Z.of_nat (List.length a)) 0); [lia|].
  destruct (Z.ltb_spec (Z.of_nat (List.length a + List.length b)) 0); [lia|].
  rewrite !Z.min_l by lia.
  replace (Z.to_nat (Z.of_nat (List.length a + List.length b)
                     - Z.of_nat (List.length a))) with (List.length b) by lia.
  rewrite Nat2Z.id, skipn_app, skipn_all, Nat.sub_diag. cbn [app skipn].
  rewrite firstn_app, firstn_all, Nat.sub_diag. cbn [firstn]. apply app_nil_r.
Qed.

(** The parser on a text of the shape [=NAME(BODY)], [NAME] holding no
    opening parenthesis.  The name is compared in lower case, so the case
    of its letters does not matter; the body is split at its commas; the
    result is the [Sum] or the [Product] of the parsed pieces, and
    [Invalid] when the name is neither word or a piece is neither a
    reference nor a number. *)
Theorem parseCellContents_call (name body : jsstring) :
  forallb (fun c => negb (c =? 40)%N) name = true ->
  parseCellContents (61%N :: name ++ 40%N :: body ++ [41%N])
  = if JsString.eqb (toLowerCase name) (lit "sum") then
      match parseNumericArgs (split 44%N body) with
      | Some args => Sum args
      | None => Invalid
      end
    else if JsString.eqb (toLowerCase name) (lit "product") then
      match parseNumericArgs (split 44%N body) with
      | Some args => Product args
      | None => Invalid
      end
    else Invalid.
Proof.
  intros Hname.
  set (inner := 40%N :: body ++ [41%N]).
  set (val := 61%N :: name ++ inner).
  assert (Htrim : trim val = val).
  { unfold val, inner.
    replace (61%N :: name ++ 40%N :: body ++ [41%N])
      with (61%N :: (name ++ 40%N :: body) ++ [41%N])
      by (now rewrite <- app_assoc).
    now apply trim_fixed. }
  assert (Hidx : indexOf val 40%N = Z.of_nat (S (List.length name))).
  { unfold indexOf, val, inner. cbn [indexOfFrom]. 
    replace (61 =? 40)%N with false by reflexivity.
    rewrite (indexOfFrom_first _ _ _ Hname). lia. }
  assert (Hfunc : slice val 1 (Z.of_nat (S (List.length name))) = name).
  { exact (slice_middle [61%N] name inner). }
  assert (Hargs : sliceFrom val (Z.of_nat (S (List.length name))) = inner).
  { unfold sliceFrom.
    pose proof (slice_middle (61%N :: name) inner []) as H.
    rewrite app_nil_r in H.
    change val with ((61%N :: name) ++ inner). rewrite length_app. exact H. }
  assert (Hlen : (Z.of_nat (@List.length codeunit inner) - 1)%Z
                 = Z.of_nat (S (List.length body))).
  { unfold inner. cbn [List.length]. rewrite length_app. cbn [List.length]. lia. }
  assert (Hlast : charAt inner (Z.of_nat (S (List.length body))) = Some 41%N).
  { unfold charAt. destruct (Z.ltb_spec (Z.of_nat (S (List.length body))) 0); [lia|].
    rewrite Nat2Z.id. unfold inner. cbn [nth_error].
    rewrite nth_error_app2 by lia. now rewrite Nat.sub_diag. }
  assert (Hbody : slice inner 1 (Z.of_nat (S (List.length body))) = body).
  { exact (slice_middle [40%N] body [41%N]). }
  unfold parseCellContents. cbv zeta. fold inner. fold val. rewrite Htrim.
  replace (charAt val 0) with (Some 61%N) by reflexivity.
  replace (negb (61 =? 61)%N) with false by reflexivity.
  rewrite Hidx.
  destruct (Z.eqb_spec (Z.of_nat (S (List.length name))) (-1)) as [E|_]; [lia|].
  rewrite Hfunc, Hargs, Hlen, Hlast, Hbody.
  replace (negb (41 =? 41)%N) with false by reflexivity.
  reflexivity.
Qed.

Lemma parseCellContents_call_witness :
  forallb (fun c => negb (c =? 40)%N) (lit "pRoDuCt") = true
  /\ parseCellContents (61%N :: lit "pRoDuCt" ++ 40%N :: lit "c7, 1.5e1" ++ [41%N])
     = Product [NumRef (addr 2 7); NumConst (ofZ 15)].
Proof.
  assert (H : forallb (fun c => negb (c =? 40)%N) (lit "pRoDuCt") = true) by reflexivity.
  split; [exact H|].
  rewrite (parseCellContents_call (lit "pRoDuCt") (lit "c7, 1.5e1") H).
  vm_compute. reflexivity.
Defined.

(** ** What a parse holds *)

Lemma toIndex_letterIndex (c : codeunit) :
  isLetter c = true ->
  toIndex (ofZ (letterIndex c)) = Some (letterIndex c)
  /\ (letterIndex c < Z.of_nat (List.length alphabet))%Z.
Proof.
  intros H. apply isLetter_cases in H.
  destruct H as [H|H]; simpl in H;
    repeat (destruct H as [<-|H]; [split; vm_compute; reflexivity|]); destruct H.
Qed.

Lemma parseRef_column (s : jsstring) (a : Address) :
  parseRef s = Some a ->
  exists c, toIndex (x a) = Some c /\ (c < Z.of_nat (List.length alphabet))%Z.
Proof.
  unfold parseRef.
  destruct (matchRef s) as [[g1 g2]|] eqn:Hm; [|discriminate].
  apply matchRef_spec in Hm as (c & d & ds & -> & Hc & Hd & -> & ->).
  rewrite (alphabetToIdx_letter _ Hc). intros H. injection H as <-. cbn [x].
  exists (letterIndex c). now apply toIndex_letterIndex.
Qed.

(** An argument as the parser builds it: a reference that [parseRef]
    returned, or a constant that is not [NaN]. *)
Definition parsedArg (arg : NumericArgs) : Prop :=
  match arg with
  | NumRef a => exists s, parseRef s = Some a
  | NumConst n => isNaN n = false
  end.

Lemma parseNumericArgsLoop_parsedArg (argsStrings : list jsstring) :
  forall args args',
    Forall parsedArg args ->
    parseNumericArgsLoop argsStrings args = Some args' ->
    Forall parsedArg args'.
Proof.
  induction argsStrings as [|arg rest IH]; cbn [parseNumericArgsLoop];
    intros args args' Hall H.
  - now injection H as <-.
  - destruct (parseRef (trim arg)) as [a|] eqn:Hr.
    + apply IH with (args := args ++ [NumRef a]); [|exact H].
      apply Forall_app. split; [exact Hall|].
      constructor; [|constructor]. exists (trim arg). exact Hr.
    + destruct (isNaN (Number (trim arg))) eqn:Hn; [discriminate|]. cbn [negb] in H.
      apply IH with (args := args ++ [NumConst (Number (trim arg))]); [|exact H].
      apply Forall_app. split; [exact Hall|].
      constructor; [exact Hn|constructor].
Qed.

Lemma parseNumericArgs_parsedArg (argsStrings : list jsstring) (args : list NumericArgs) :
  parseNumericArgs argsStrings = Some args -> Forall parsedArg args.
Proof.
  unfold parseNumericArgs.
  destruct (parseNumericArgsLoop argsStrings []) as [a|] eqn:E; [|discriminate].
  destruct (List.length a =? 0)%nat; [discriminate|]. intros H. injection H as <-.
  exact (parseNumericArgsLoop_parsedArg _ _ _ (Forall_nil _) E).
Qed.

Lemma parseCellContents_parsedArg (text : jsstring) :
  match parseCellContents text with
  | Ref a => exists s, parseRef s = Some a
  | Sum args | Product args => Forall parsedArg args
  | Const | Invalid => True
  end.
Proof.
  unfold parseCellContents.
  destruct (charAt (trim text) 0); [|exact I].
  destruct (negb (c =? 61)%N); [exact I|].
  destruct (indexOf (trim text) 40%N =? -1)%Z.
  - destruct (parseRef _) eqn:E; [eauto|exact I].
  - destruct (charAt _ _) as [c1|]; [|exact I].
    destruct (negb (c1 =? 41)%N); [exact I|].
    destruct (JsString.eqb _ (lit "sum")).
    + destruct (parseNumericArgs _) eqn:E; [|exact I].
      exact (parseNumericArgs_parsedArg _ _ E).
    + destruct (JsString.eqb _ (lit "product")); [|exact I].
      destruct (parseNumericArgs _) eqn:E; [|exact I].
      exact (parseNumericArgs_parsedArg _ _ E).
Qed.

Lemma dependencies_parsed (text : jsstring) (dep : Address) :
  In dep (dependencies (parseCellContents text)) -> exists s, parseRef s = Some dep.
Proof.
  pose proof (parseCellContents_parsedArg text) as H.
  destruct (parseCellContents text) as [| |a|args|args]; cbn [dependencies]; intros Hin;
    try contradiction.
  - destruct Hin as [<-|[]]. exact H.
  - apply In_refAddresses in Hin.
    exact (proj1 (Forall_forall _ _) H _ Hin).
  - apply In_refAddresses in Hin.
    exact (proj1 (Forall_forall _ _) H _ Hin).
Qed.

(** A reference of a formula never finds an empty slot in the grid of the
    program.  Whatever the text, every address that its parse depends on
    has a column of the alphabet; so in a grid built with one column per
    letter, after any edits, a lookup at such an address raises (the row is
    outside the grid) or returns a cell, and never [null] or [undefined]:
    the branches of [hasLoop], [readNumber] and the [ref] case of [value]
    for a missing cell are not taken. *)
Theorem parsed_reference_lookup (text : jsstring) (dep : Address) :
  In dep (dependencies (parseCellContents text)) ->
  (exists c, toIndex (x dep) = Some c /\ (c < Z.of_nat (List.length alphabet))%Z)
  /\ forall rows state,
       reachable (List.length alphabet) rows state ->
       lookupCell state dep = TypeError
       \/ exists cell, lookupCell state dep = Ret (Occupied cell).
Proof.
  intros Hin. destruct (dependencies_parsed _ _ Hin) as [s Hs].
  destruct (parseRef_column _ _ Hs) as (c & Hc & Hlt).
  split; [eauto|]. intros rows state Hreach.
  destruct (reachable_fullGrid _ _ _ Hreach) as [_ Hall].
  unfold lookupCell, arrayGet. rewrite Hc.
  destruct (toIndex (y dep)) as [r|]; [|now left].
  destruct (element state r) as [row|] eqn:Hr; [|now left].
  right. rewrite Forall_forall in Hall.
  destruct (Hall row (element_In _ _ _ Hr)) as [Hlen Hocc].
  destruct (element_defined row c) as [sl Hsl].
  { pose proof (toIndex_nonneg _ _ Hc). lia. }
  rewrite Hsl. rewrite Forall_forall in Hocc.
  destruct (Hocc sl (element_In _ _ _ Hsl)) as [cell ->]. eauto.
Qed.

Lemma parsed_reference_lookup_witness :
  In (addr 25 1000) (dependencies (parseCellContents (lit "=SUM(1,z1000,A2)")))
  /\ lookupCell gridMatrix (addr 25 1000) = TypeError
  /\ (exists c, toIndex (x (addr 25 1000)) = Some c
                /\ (c < Z.of_nat (List.length alphabet))%Z)
  /\ forall rows state,
       reachable (List.length alphabet) rows state ->
       lookupCell state (addr 25 1000) = TypeError
       \/ exists cell, lookupCell state (addr 25 1000) = Ret (Occupied cell).
Proof.
  assert (H : In (addr 25 1000)
                 (dependencies (parseCellContents (lit "=SUM(1,z1000,A2)")))).
  { replace (dependencies (parseCellContents (lit "=SUM(1,z1000,A2)")))
      with [addr 25 1000; addr 0 2] by (vm_compute; reflexivity).
    now left. }
  split; [exact H|]. split; [vm_compute; reflexivity|].
  exact (parsed_reference_lookup (lit "=SUM(1,z1000,A2)") (addr 25 1000) H).
Defined.

Lemma parseNumericArgsLoop_none (argsStrings : list jsstring) :
  forall args,
    parseNumericArgsLoop argsStrings args = None
    <-> exists piece, In piece argsStrings
                      /\ parseRef (trim piece) = None
                      /\ isNaN (Number (trim piece)) = true.
Proof.
  induction argsStrings as [|arg rest IH]; intros args; cbn [parseNumericArgsLoop].
  - split; [discriminate|intros (piece & [] & _)].
  - destruct (parseRef (trim arg)) as [a|] eqn:Hr.
    + rewrite IH. split.
      * intros (piece & Hin & H). exists piece. split; [now right|exact H].
      * intros (piece & [<-|Hin] & Hp & Hn); [congruence|eauto].
    + destruct (isNaN (Number (trim arg))) eqn:Hn; cbn [negb].
      * split; [intros _|reflexivity]. exists arg. split; [now left|auto].
      * rewrite IH. split.
        -- intros (piece & Hin & H). exists piece. split; [now right|exact H].
        -- intros (piece & [<-|Hin] & Hp & Hn'); [congruence|eauto].
Qed.

(** [parseNumericArgs] is all or nothing.  It returns [null] exactly when
    there is no piece at all or some piece, trimmed, is neither a reference
    nor a text that converts to a number; otherwise it returns one argument
    for each piece, none dropped, and none of its constants is [NaN]. *)
Theorem parseNumericArgs_all_or_nothing (argsStrings : list jsstring) :
  (parseNumericArgs argsStrings = None
   <-> argsStrings = []
       \/ exists piece, In piece argsStrings
                        /\ parseRef (trim piece) = None
                        /\ isNaN (Number (trim piece)) = true)
  /\ forall args,
       parseNumericArgs argsStrings = Some args ->
       List.length args = List.length argsStrings
       /\ forall num, In (NumConst num) args -> isNaN num = false.
Proof.
  split.
  - unfold parseNumericArgs.
    destruct (parseNumericArgsLoop argsStrings []) as [a|] eqn:E.
    + pose proof (parseNumericArgsLoop_length _ _ _ E) as Hlen. cbn [List.length] in Hlen.
      assert (Hsome : ~ exists piece, In piece argsStrings
                                      /\ parseRef (trim piece) = None
                                      /\ isNaN (Number (trim piece)) = true).
      { intros H. apply parseNumericArgsLoop_none with (args := []) in H. congruence. }
      destruct (Nat.eqb_spec (List.length a) 0) as [E0|E0].
      * split; [intros _; left|reflexivity].
        destruct argsStrings; [reflexivity|cbn [List.length] in Hlen; lia].
      * split; [discriminate|]. intros [->|H]; [|now elim Hsome].
        cbn [List.length] in Hlen. lia.
    + split; [intros _; right|reflexivity].
      now apply (parseNumericArgsLoop_none argsStrings []).
  - intros args H. split.
    + unfold parseNumericArgs in H.
      destruct (parseNumericArgsLoop argsStrings []) as [a|] eqn:E; [|discriminate].
      destruct (List.length a =? 0)%nat; [discriminate|]. injection H as <-.
      exact (parseNumericArgsLoop_length _ _ _ E).
    + intros num Hin.
      exact (proj1 (Forall_forall _ _) (parseNumericArgs_parsedArg _ _ H) _ Hin).
Qed.

(** ** Labels and references *)

Definition labelArithmetic (k : Z) : bool :=
  negb (ofZ k =? zero)%float
  && PrimFloat.Leibniz.eqb (ofZ k - one)%float (ofZ (k - 1)).

Lemma labelArithmetic_range :
  forallb labelArithmetic (map Z.of_nat (seq 1 1000)) = true.
Proof. vm_compute. reflexivity. Qed.

Lemma label_minus_one (k : Z) :
  (1 <= k <= 1000)%Z ->
  (ofZ k =? zero)%float = false /\ (ofZ k - one)%float = ofZ (k - 1).
Proof.
  intros Hk.
  assert (Hin : In k (map Z.of_nat (seq 1 1000))).
  { apply in_map_iff. exists (Z.to_nat k). split; [lia|]. apply in_seq. lia. }
  pose proof (proj1 (forallb_forall _ _) labelArithmetic_range k Hin) as H.
  unfold labelArithmetic in H. apply andb_true_iff in H as [H1 H2].
  split; [now apply negb_true_iff|now apply FloatAxioms.Leibniz.eqb_spec].
Qed.

Lemma column_letter (k : Z) :
  (1 <= k <= Z.of_nat (List.length alphabet))%Z ->
  arrayGet alphabet (ofZ (k - 1)) = Some [Z.to_N (64 + k)]
  /\ isLetter (Z.to_N (64 + k)) = true
  /\ letterIndex (Z.to_N (64 + k)) = (k - 1)%Z.
Proof.
  intros Hk.
  assert (Hin : In k (map Z.of_nat (seq 1 26))).
  { apply in_map_iff. exists (Z.to_nat k). split; [lia|]. apply in_seq.
    cbn [List.length alphabet map] in Hk. lia. }
  simpl in Hin.
  repeat (destruct Hin as [<-|Hin]; [repeat split; vm_compute; reflexivity|]).
  destruct Hin.
Qed.

Lemma parseRef_letter_digits (c d : codeunit) (ds : jsstring) :
  isLetter c = true -> forallb isDigit (d :: ds) = true ->
  parseRef (c :: d :: ds) = Some (addr (letterIndex c) (digitsValue 10 (d :: ds))).
Proof.
  intros Hc Hd. unfold parseRef.
  assert (Hm : matchRef (c :: d :: ds) = Some ([c], d :: ds)).
  { apply matchRef_spec. exists c, d, ds. auto. }
  now rewrite Hm, (alphabetToIdx_letter _ Hc), (Number_digits _ _ Hd).
Qed.

(** The labels of the grid are the references of the parser.  In the
    scrolling grid of 26 columns and 1000 rows under its label row and
    beside its label column, take a column [k] and a row [r]: the letter
    that [GridNode] draws over the column followed by digits of the number
    that it draws beside the row parses to the address of the cell that
    [GridNode] draws where they cross. *)
Theorem GridNode_labels (k r : Z) (d : codeunit) (ds : jsstring) :
  (1 <= k <= Z.of_nat (List.length alphabet))%Z ->
  (1 <= r <= 1000)%Z ->
  forallb isDigit (d :: ds) = true ->
  digitsValue 10 (d :: ds) = (r - 1)%Z ->
  exists letter,
    GridNode (ofZ k) zero = ColumnLabel (Some [letter])
    /\ GridNode zero (ofZ r) = RowLabel (ofZ (r - 1))
    /\ GridNode (ofZ k) (ofZ r) = CellAt (addr (k - 1) (r - 1))
    /\ parseRef (letter :: d :: ds) = Some (addr (k - 1) (r - 1)).
Proof.
  intros Hk Hr Hd Hv.
  destruct (column_letter k Hk) as (Hlabel & Hletter & Hidx).
  assert (Hk' : (1 <= k <= 1000)%Z).
  { cbn [List.length alphabet map] in Hk. lia. }
  destruct (label_minus_one k Hk') as [Hk0 Hk1].
  destruct (label_minus_one r Hr) as [Hr0 Hr1].
  assert (Hz : (zero =? zero)%float = true) by reflexivity.
  exists (Z.to_N (64 + k)). unfold GridNode.
  rewrite Hk0, Hr0, Hz, Hk1, Hr1, Hlabel. cbn [andb].
  repeat split.
  rewrite (parseRef_letter_digits _ _ _ Hletter Hd), Hidx, Hv. reflexivity.
Qed.

Lemma GridNode_labels_witness :
  GridNode zero zero = Blank
  /\ exists letter,
       GridNode (ofZ 3) zero = ColumnLabel (Some [letter])
       /\ GridNode zero (ofZ 8) = RowLabel (ofZ 7)
       /\ GridNode (ofZ 3) (ofZ 8) = CellAt (addr 2 7)
       /\ parseRef (letter :: lit "007") = Some (addr 2 7).
Proof.
  split; [reflexivity|].
  apply (GridNode_labels 3 8 48%N (lit "07")).
  - cbn [List.length alphabet map]. lia.
  - lia.
  - reflexivity.
  - reflexivity.
Defined.

(** ** More on the edit handler and the detector *)

(** A text that refers to a row outside the grid is never committed.  If
    some reference of the proposed text makes [lookupCell] raise, the blur
    handler does not reach [newValue]: the check raises, or has already
    answered [true] on an earlier reference, and the grid is left as it
    was. *)
Theorem onBlur_out_of_grid (fuel : nat) (matrix : State) (address dep : Address)
        (edit : jsstring) :
  In dep (dependencies (parseCellContents edit)) ->
  lookupCell matrix dep = TypeError ->
  snd (onBlur fuel matrix address edit) <> Committed
  /\ fst (onBlur fuel matrix address edit) = matrix.
Proof.
  intros Hin Hl.
  assert (Hans : hasDependencyCycle fuel matrix address edit <> Ret false).
  { intros H. unfold hasDependencyCycle in H.
    pose proof (some_false _ _ H dep Hin) as Hdep.
    exact (hasLoop_false_lookup _ _ _ _ Hdep Hl). }
  unfold onBlur.
  destruct (hasDependencyCycle fuel matrix address edit) as [[|]| |]; cbn [fst snd];
    try (split; [discriminate|reflexivity]).
  now elim Hans.
Qed.

Lemma onBlur_out_of_grid_witness :
  In (addr 0 1000) (dependencies (parseCellContents (lit "=PRODUCT(2,A1000)")))
  /\ lookupCell gridMatrix (addr 0 1000) = TypeError
  /\ onBlur 5 gridMatrix (addr 1 1) (lit "=PRODUCT(2,A1000)") = (gridMatrix, Raised)
  /\ snd (onBlur 5 gridMatrix (addr 1 1) (lit "=PRODUCT(2,A1000)")) <> Committed
  /\ fst (onBlur 5 gridMatrix (addr 1 1) (lit "=PRODUCT(2,A1000)")) = gridMatrix.
Proof.
  assert (H1 : In (addr 0 1000)
                  (dependencies (parseCellContents (lit "=PRODUCT(2,A1000)")))).
  { replace (dependencies (parseCellContents (lit "=PRODUCT(2,A1000)")))
      with [addr 0 1000] by (vm_compute; reflexivity).
    now left. }
  assert (H2 : lookupCell gridMatrix (addr 0 1000) = TypeError)
    by (vm_compute; reflexivity).
  split; [exact H1|]. split; [exact H2|]. split; [vm_compute; reflexivity|].
  exact (onBlur_out_of_grid 5 gridMatrix (addr 1 1) (addr 0 1000)
           (lit "=PRODUCT(2,A1000)") H1 H2).
Defined.

Lemma some_agree {A : Type} (f g : A -> result bool) (l : list A) :
  (forall a, In a l -> f a = g a) -> some f l = some g l.
Proof.
  induction l as [|a l IH]; intros H; cbn [some]; [reflexivity|].
  rewrite (H a (or_introl eq_refl)).
  destruct (g a) as [[|]| |]; cbn [bind]; try reflexivity.
  apply IH. intros a' Hin. apply H. now right.
Qed.

Lemma hasLoop_ignores_current (state state' : State) (address : Address)
      (text : jsstring) :
  newValue state address text = Ret state' ->
  forall fuel depAddress,
    hasLoop fuel state' address depAddress = hasLoop fuel state address depAddress.
Proof.
  intros Hnew. destruct (newValue_written _ _ _ _ Hnew) as (_ & Hframe & _).
  induction fuel as [|fuel IH]; intros dep; [reflexivity|].
  cbn [hasLoop]. destruct (eqAddress address dep) eqn:E; [reflexivity|].
  rewrite (Hframe dep E).
  destruct (lookupCell state dep) as [[| |c]| |]; cbn [bind]; try reflexivity.
  apply some_agree. intros dep' _. apply IH.
Qed.

(** The check does not read the cell that is being edited.  Whatever raw
    text the cell at the edited address holds, the detector gives the same
    outcome for a candidate: when [newValue] has written that cell, the
    check of any candidate for the same address is what it was before the
    write. *)
Theorem hasDependencyCycle_ignores_current (state state' : State) (address : Address)
        (text : jsstring) :
  newValue state address text = Ret state' ->
  forall fuel candidate,
    hasDependencyCycle fuel state' address candidate
    = hasDependencyCycle fuel state address candidate.
Proof.
  intros Hnew fuel candidate. unfold hasDependencyCycle.
  apply some_agree. intros dep _.
  exact (hasLoop_ignores_current _ _ _ _ Hnew fuel dep).
Qed.

Lemma hasDependencyCycle_ignores_current_witness :
  let state := fst (onBlur 1 gridMatrix (addr 0 1) (lit "=B1")) in
  let state' := match newValue state (addr 1 1) (lit "=C1") with
                | Ret s => s
                | _ => []
                end in
  newValue state (addr 1 1) (lit "=C1") = Ret state'
  /\ hasDependencyCycle 3 state (addr 1 1) (lit "=SUM(A1,1)") = Ret true
  /\ forall fuel candidate,
       hasDependencyCycle fuel state' (addr 1 1) candidate
       = hasDependencyCycle fuel state (addr 1 1) candidate.
Proof.
  intros state state'.
  assert (H : newValue state (addr 1 1) (lit "=C1") = Ret state')
    by (vm_compute; reflexivity).
  split; [exact H|]. split; [vm_compute; reflexivity|].
  exact (hasDependencyCycle_ignores_current state state' (addr 1 1) (lit "=C1") H).
Defined.

(** ** What the grid shows *)

(** In a grid that the program has gone through, showing a position never
    fails for a formula: [readValue] raises exactly when the row of the
    address is outside the grid, and otherwise returns a text or a number
    (the empty text where the column is outside the row). *)
Theorem readValue_total (cols rows fuel : nat) (state : State) (address : Address) :
  reachable cols rows state ->
  (slotCount state < fuel)%nat ->
  (arrayGet state (y address) = None /\ readValue fuel state address = TypeError)
  \/ (arrayGet state (y address) <> None
      /\ exists v, readValue fuel state address = Ret v).
Proof.
  intros Hreach Hfuel.
  destruct (reachable_sound _ _ _ Hreach) as [Hrefs Hac].
  unfold readValue.
  destruct (lookupCell state address) as [s| |] eqn:Hl; cbn [bind].
  - right. split.
    { intros E. apply lookupCell_raises in E. congruence. }
    destruct s as [| |cell]; eauto.
    apply lookupCell_occupied in Hl as (p & Hp & Hcell).
    apply (value_fuel state Hac Hrefs fuel [] p cell Hcell).
    + constructor.
    + constructor; [eauto|constructor].
    + cbn [List.length]. lia.
  - left. split; [now apply lookupCell_raises|reflexivity].
  - now elim (lookupCell_never_out_of_fuel state address).
Qed.

Lemma readValue_total_witness :
  let state := fst (onBlur 1 gridMatrix (addr 0 1) (lit "=B1")) in
  reachable (List.length alphabet) 1000 state
  /\ readValue 2 state (addr 0 1) = Ret (Text [])
  /\ readValue 2 state (addr 0 1000) = TypeError
  /\ readValue 2 state (addr 26 1) = Ret (Text [])
  /\ ((arrayGet state (y (addr 0 1)) = None
       /\ readValue (S (slotCount state)) state (addr 0 1) = TypeError)
      \/ (arrayGet state (y (addr 0 1)) <> None
          /\ exists v, readValue (S (slotCount state)) state (addr 0 1) = Ret v)).
Proof.
  intros state.
  assert (H : reachable (List.length alphabet) 1000 state)
    by (apply reachable_edit, reachable_init).
  split; [exact H|]. split; [vm_compute; reflexivity|].
  split; [vm_compute; reflexivity|]. split; [vm_compute; reflexivity|].
  apply (readValue_total (List.length alphabet) 1000 (S (slotCount state)) state
           (addr 0 1) H). lia.
Defined.

(** ** Successive writes *)

Lemma updateRow_ext (f g : list slot -> list slot) :
  (forall row, f row = g row) ->
  forall (state : State) (i : Z), updateRow state i f = updateRow state i g.
Proof.
  intros H. induction state as [|row state IH]; intros i; cbn [updateRow];
    [reflexivity|].
  destruct (i =? 0)%Z; [now rewrite H|now rewrite IH].
Qed.

Lemma updateRow_twice (f g : list slot -> list slot) :
  forall (state : State) (i : Z),
    updateRow (updateRow state i f) i g = updateRow state i (fun row => g (f row)).
Proof.
  induction state as [|row state IH]; intros i; cbn [updateRow]; [reflexivity|].
  destruct (i =? 0)%Z eqn:E; cbn [updateRow]; rewrite E; [reflexivity|].
  now rewrite IH.
Qed.

Lemma updateRow_swap (f g : list slot -> list slot) :
  forall (state : State) (i i' : Z),
    i <> i' ->
    updateRow (updateRow state i f) i' g = updateRow (updateRow state i' g) i f.
Proof.
  induction state as [|row state IH]; intros i i' Hne; cbn [updateRow]; [reflexivity|].
  destruct (Z.eqb_spec i 0) as [->|Hi], (Z.eqb_spec i' 0) as [->|Hi'];
    cbn [updateRow]; try lia.
  - destruct (Z.eqb_spec i' 0); [lia|]. now rewrite Z.eqb_refl.
  - destruct (Z.eqb_spec i 0); [lia|]. now rewrite Z.eqb_refl.
  - destruct (Z.eqb_spec i 0), (Z.eqb_spec i' 0); try lia.
    rewrite IH by lia. reflexivity.
Qed.

Lemma setElement_twice (s s' : slot) :
  forall (j : nat) (row : list slot),
    setElement (setElement row j s) j s' = setElement row j s'.
Proof.
  induction j as [|j IH]; intros [|c row]; cbn [setElement]; try reflexivity;
    now rewrite IH.
Qed.

Lemma setElement_swap (s s' : slot) :
  forall (j j' : nat) (row : list slot),
    j <> j' ->
    setElement (setElement row j s) j' s' = setElement (setElement row j' s') j s.
Proof.
  induction j as [|j IH]; intros [|j'] row Hne; try lia;
    destruct row as [|c row]; cbn [setElement]; try reflexivity;
    rewrite IH by lia; reflexivity.
Qed.

Lemma newValue_at (state : State) (a : Address) (value : jsstring) (r c : Z) :
  toIndex (y a) = Some r -> toIndex (x a) = Some c ->
  lookupCell state a <> TypeError -> lookupCell state a <> Ret Undefined ->
  newValue state a value
  = Ret (updateRow state r
           (fun row => setElement row (Z.to_nat c) (Occupied (newCell value)))).
Proof.
  intros Hy Hx Hl Hu.
  destruct (newValue state a value) as [s'| |] eqn:E.
  - apply newValue_result in E as (r' & c' & row & s & Hy' & Hx' & _ & _ & ->).
    assert (r' = r) by congruence. assert (c' = c) by congruence.
    now subst r' c'.
  - apply newValue_raises in E. tauto.
  - now elim (newValue_never_out_of_fuel state a value).
Qed.

Lemma newValue_indices (state state' : State) (a : Address) (value : jsstring) :
  newValue state a value = Ret state' ->
  exists r c,
    toIndex (y a) = Some r /\ toIndex (x a) = Some c
    /\ lookupCell state a <> TypeError /\ lookupCell state a <> Ret Undefined.
Proof.
  intros H.
  assert (Hr : newValue state a value <> TypeError) by congruence.
  rewrite newValue_raises in Hr.
  apply newValue_result in H as (r & c & row & s & Hy & Hx & _ & _ & _).
  exists r, c. tauto.
Qed.

(** Successive writes of [newValue].  A second write to the same address
    replaces the first: the grid is the one the second write alone would
    leave.  Writes to two addresses that [eqAddress] tells apart can be done
    in either order: both orders succeed and leave the same grid. *)
Theorem newValue_compose (state sa : State) (a : Address) (v : jsstring) :
  newValue state a v = Ret sa ->
  (forall w, newValue sa a w = newValue state a w)
  /\ forall (b : Address) (w : jsstring) (sb : State),
       eqAddress a b = false ->
       newValue state b w = Ret sb ->
       exists s', newValue sa b w = Ret s' /\ newValue sb a v = Ret s'.
Proof.
  intros Ha.
  destruct (newValue_indices _ _ _ _ Ha) as (ra & ca & Hya & Hxa & Hla & Hua).
  destruct (newValue_written _ _ _ _ Ha) as (Hcell & Hframe & _).
  pose proof Ha as Hsa. rewrite (newValue_at _ _ _ _ _ Hya Hxa Hla Hua) in Hsa.
  injection Hsa as Hsa.
  split.
  - intros w.
    rewrite (newValue_at sa a w ra ca Hya Hxa) by (rewrite Hcell; discriminate).
    rewrite (newValue_at state a w ra ca Hya Hxa Hla Hua).
    f_equal. rewrite <- Hsa, updateRow_twice.
    apply updateRow_ext. intros row. apply setElement_twice.
  - intros b w sb Hab Hb.
    destruct (newValue_indices _ _ _ _ Hb) as (rb & cb & Hyb & Hxb & Hlb & Hub).
    destruct (newValue_written _ _ _ _ Hb) as (_ & Hframeb & _).
    pose proof Hb as Hsb. rewrite (newValue_at _ _ _ _ _ Hyb Hxb Hlb Hub) in Hsb.
    injection Hsb as Hsb.
    assert (Hba : eqAddress b a = false).
    { destruct (eqAddress b a) eqn:E; [|reflexivity].
      unfold eqAddress in *. apply andb_true_iff in E as [Ex Ey].
      now rewrite (number_eqb_sym _ _ Ex), (number_eqb_sym _ _ Ey) in Hab. }
    rewrite (newValue_at sa b w rb cb Hyb Hxb)
      by (rewrite (Hframe b Hab); assumption).
    rewrite (newValue_at sb a v ra ca Hya Hxa)
      by (rewrite (Hframeb a Hba); assumption).
    eexists. split; [reflexivity|]. f_equal. rewrite <- Hsa, <- Hsb.
    destruct (Z.eq_dec ra rb) as [->|Hr].
    + rewrite !updateRow_twice. apply updateRow_ext. intros row.
      apply setElement_swap.
      assert (Hc : ca <> cb).
      { intros ->.
        assert (Hs : slotOf a = Some (rb, cb)) by (unfold slotOf; now rewrite Hya, Hxa).
        assert (Hs' : slotOf b = Some (rb, cb)) by (unfold slotOf; now rewrite Hyb, Hxb).
        now rewrite (slotOf_eqAddress _ _ _ Hs Hs') in Hab. }
      pose proof (toIndex_nonneg _ _ Hxa). pose proof (toIndex_nonneg _ _ Hxb). lia.
    + symmetry. now apply updateRow_swap.
Qed.

Lemma newValue_compose_witness :
  let sa := match newValue gridMatrix (addr 0 1) (lit "1") with
            | Ret s => s
            | _ => []
            end in
  newValue gridMatrix (addr 0 1) (lit "1") = Ret sa
  /\ (forall w, newValue sa (addr 0 1) w = newValue gridMatrix (addr 0 1) w)
  /\ forall (b : Address) (w : jsstring) (sb : State),
       eqAddress (addr 0 1) b = false ->
       newValue gridMatrix b w = Ret sb ->
       exists s', newValue sa b w = Ret s' /\ newValue sb (addr 0 1) (lit "1") = Ret s'.
Proof.
  intros sa.
  assert (H : newValue gridMatrix (addr 0 1) (lit "1") = Ret sa)
    by (vm_compute; reflexivity).
  split; [exact H|].
  exact (newValue_compose gridMatrix sa (addr 0 1) (lit "1") H).
Defined.
